(** * GigFlow backend: the bid and gig controllers over a document store

    A shallow embedding of [controllers/bid.controller.js],
    [controllers/gig.controller.js] and the Bid schema
    ([models/Bid.model.js]).  The two Mongo collections are finite maps
    from [_id] to document; every request handler is a function from the
    caller, the request and the state to a new state and a response.

    Conventions of the model:
    - identifiers (ObjectIds) are natural numbers; a well-formed id is the
      only kind the handlers receive here, and a fresh one is drawn from a
      counter;
    - text is ASCII; a JavaScript number is an integer;
    - [createdAt] is a logical timestamp (the handlers sort on it);
      [updatedAt] is read by no handler and is left out;
    - [populate] only decorates a response and is left out of the payloads;
    - [create] and [save] run the schema's setters and validators on the
      fields the handler assigns from the request; a [save] that changes
      only a status or a reference has nothing new to validate;
    - a store error is modelled where the code handles one on its own,
      in the transaction of [hireBid]. *)

From Stdlib Require Import ZArith String Ascii List Bool Lia.
From stdpp Require Import gmap strings list fin_maps sorting.

(** ** Text: trimming, case folding, and the pattern language of [$regex] *)

Module Text.

(** Characters removed by [String.prototype.trim] (ASCII range). *)
Definition is_space (c : ascii) : bool :=
  let n := nat_of_ascii c in
  ((9 <=? n)%nat && (n <=? 13)%nat) || (n =? 32)%nat.

Fixpoint trim_left (s : string) : string :=
  match s with
  | EmptyString => EmptyString
  | String c r => if is_space c then trim_left r else s
  end.

Fixpoint trim_right (s : string) : string :=
  match s with
  | EmptyString => EmptyString
  | String c r =>
      match trim_right r with
      | EmptyString => if is_space c then EmptyString else String c EmptyString
      | r' => String c r'
      end
  end.

Definition trim (s : string) : string := trim_right (trim_left s).

(** Case folding of the [i] option. *)
Definition lower (c : ascii) : ascii :=
  let n := nat_of_ascii c in
  if ((65 <=? n)%nat && (n <=? 90)%nat) then ascii_of_nat (n + 32) else c.

Definition eq_ci (a b : ascii) : bool :=
  bool_decide (lower a = lower b).

(** [prefix_ci p s]: [p] is a prefix of [s] up to case. *)
Fixpoint prefix_ci (p s : string) : bool :=
  match p, s with
  | EmptyString, _ => true
  | String a p', String b s' => eq_ci a b && prefix_ci p' s'
  | String _ _, EmptyString => false
  end.

(** [contains_ci s p]: [p] occurs in [s] as a substring, up to case. *)
Fixpoint contains_ci (s p : string) : bool :=
  prefix_ci p s ||
  match s with
  | EmptyString => false
  | String _ s' => contains_ci s' p
  end.

(** The part of the pattern language that is modelled: a sequence of
    ordinary characters and of [.] (any character but a line feed).  Every
    other metacharacter puts the pattern outside the fragment. *)
Inductive Atom : Type :=
  | Lit (c : ascii)
  | AnyChar.

Definition is_meta (c : ascii) : bool :=
  existsb (fun m => bool_decide (c = m))
          (list_ascii_of_string "\^$.[]|()?*+{}").

Definition dot : ascii := "."%char.
Definition line_feed : ascii := ascii_of_nat 10.

Fixpoint parse (pat : string) : option (list Atom) :=
  match pat with
  | EmptyString => Some []
  | String c r =>
      if bool_decide (c = dot) then cons AnyChar <$> parse r
      else if is_meta c then None
      else cons (Lit c) <$> parse r
  end.

Definition atom_matches (a : Atom) (c : ascii) : bool :=
  match a with
  | Lit l => eq_ci l c
  | AnyChar => negb (bool_decide (c = line_feed))
  end.

Fixpoint match_here (p : list Atom) (s : string) : bool :=
  match p, s with
  | [], _ => true
  | a :: p', String c s' => atom_matches a c && match_here p' s'
  | _ :: _, EmptyString => false
  end.

(** Unanchored search, as [$regex] does. *)
Fixpoint search (p : list Atom) (s : string) : bool :=
  match_here p s ||
  match s with
  | EmptyString => false
  | String _ s' => search p s'
  end.

(** A search term without metacharacters. *)
Definition plain (pat : string) : bool :=
  forallb (fun c => negb (is_meta c)) (list_ascii_of_string pat).

End Text.

(** ** Documents *)

Definition Id := nat.

Inductive BidStatus : Type := pending | hired | rejected.
Inductive GigStatus : Type := open | assigned.

#[global] Instance BidStatus_eq_dec : EqDecision BidStatus.
Proof. solve_decision. Defined.
#[global] Instance GigStatus_eq_dec : EqDecision GigStatus.
Proof. solve_decision. Defined.

(** [bidSchema]; the key of the collection is the document's [_id]. *)
Record Bid : Type := mkBid {
  gigId : Id;
  freelancerId : Id;
  message : string;
  price : Z;
  status : BidStatus;
  createdAt : nat
}.

(** Modelled from the spec: the Gig schema ([models/Gig.model.js] is not
    among the sources).  Section 3 of the specification and the README give
    its fields: title, description, budget, owner reference, a status in
    open / assigned and an optional hired-bid reference; a new gig is open
    and has no hired bid. *)
Record Gig : Type := mkGig {
  title : string;
  description : string;
  budget : Z;
  ownerId : Id;
  gigStatus : GigStatus;
  hiredBidId : option Id;
  gigCreatedAt : nat
}.

Definition gigStatusName (s : GigStatus) : string :=
  match s with open => "open" | assigned => "assigned" end.

Definition BidDoc : Type := Id * Bid.
Definition GigDoc : Type := Id * Gig.

(** ** The store and the responses *)

(** The [hired] event pushed to the room [user:<freelancer>]. *)
Record Hired : Type := mkHired {
  room : Id;
  hiredMessage : string;
  hiredGig : Id * string;
  hiredBid : Id * Z
}.

Record State : Type := mkState {
  gigs : gmap Id Gig;
  bids : gmap Id Bid;
  fresh : nat;
  outbox : list Hired
}.

Definition initial : State :=
  {| gigs := ∅; bids := ∅; fresh := 0; outbox := [] |}.

Inductive Error : Type := ValidationError | StoreError.

Inductive Body : Type :=
  | Failure (msg : string)
  | Success (msg : string)
  | WithBid (msg : string) (bid : option BidDoc)
  | WithGig (msg : option string) (gig : option GigDoc)
  | BidList (count : nat) (docs : list BidDoc)
  | GigList (count : nat) (docs : list GigDoc).

(** What a handler does with the request: answer with a status and a JSON
    body, hand an error to the error middleware ([next(error)]), or throw
    out of its own [catch], so that no answer is sent. *)
Inductive Response : Type :=
  | Json (code : nat) (body : Body)
  | NextError (e : Error)
  | Unanswered.

Definition statusOf (r : Response) : option nat :=
  match r with Json c _ => Some c | _ => None end.

(** The statuses of the error kinds at the boundary: the controllers answer
    404 for a document that is missing, 403 for a caller who is not
    authorized, 400 for a state that refuses the operation. *)
Definition not_found : nat := 404.
Definition forbidden : nat := 403.
Definition conflict : nat := 400.
Definition unauthenticated : nat := 401.

(** JavaScript [a || b] on an optional string and on an optional number. *)
Definition orS (a : option string) (b : string) : string :=
  match a with
  | Some EmptyString | None => b
  | Some s => s
  end.

Definition orZ (a : option Z) (b : Z) : Z :=
  match a with
  | Some 0%Z | None => b
  | Some n => n
  end.

(** ** The Bid schema: setters and validators *)

Definition validMessage (m : string) : bool :=
  (10 <=? String.length m)%nat && (String.length m <=? 1000)%nat.

Definition validPrice (p : Z) : bool :=
  (1 <=? p)%Z && (p <=? 1000000)%Z.

Definition setMessage (m : string) (b : Bid) : Bid :=
  {| gigId := gigId b; freelancerId := freelancerId b;
     message := Text.trim m; price := price b;
     status := status b; createdAt := createdAt b |}.

Definition setPrice (p : Z) (b : Bid) : Bid :=
  {| gigId := gigId b; freelancerId := freelancerId b;
     message := message b; price := p;
     status := status b; createdAt := createdAt b |}.

Definition setStatus (s : BidStatus) (b : Bid) : Bid :=
  {| gigId := gigId b; freelancerId := freelancerId b;
     message := message b; price := price b;
     status := s; createdAt := createdAt b |}.

Definition validateBid (b : Bid) : bool :=
  validMessage (message b) && validPrice (price b).

(** [new Bid({gigId, freelancerId, message, price})]: both content fields
    are required, the message is trimmed, the status defaults to pending. *)
Definition newBid (gig caller : Id) (msg : option string) (p : option Z)
    (now : nat) : option Bid :=
  match msg, p with
  | Some m, Some n =>
      Some {| gigId := gig; freelancerId := caller;
              message := Text.trim m; price := n;
              status := pending; createdAt := now |}
  | _, _ => None
  end.

Definition setGigContent (t d : string) (b : Z) (g : Gig) : Gig :=
  {| title := t; description := d; budget := b; ownerId := ownerId g;
     gigStatus := gigStatus g; hiredBidId := hiredBidId g;
     gigCreatedAt := gigCreatedAt g |}.

Definition assign (bid : Id) (g : Gig) : Gig :=
  {| title := title g; description := description g; budget := budget g;
     ownerId := ownerId g; gigStatus := assigned; hiredBidId := Some bid;
     gigCreatedAt := gigCreatedAt g |}.

(** ** Queries *)

Definition bidNewer (x y : BidDoc) : Prop :=
  (createdAt (snd y) <= createdAt (snd x))%nat.
Definition gigNewer (x y : GigDoc) : Prop :=
  (gigCreatedAt (snd y) <= gigCreatedAt (snd x))%nat.

#[global] Instance bidNewer_dec : RelDecision bidNewer.
Proof. intros x y. unfold bidNewer. apply _. Defined.
#[global] Instance gigNewer_dec : RelDecision gigNewer.
Proof. intros x y. unfold gigNewer. apply _. Defined.

(** [Bid.find(q).sort({createdAt: -1})] *)
Definition findBids (q : Id -> Bid -> bool) (m : gmap Id Bid) : list BidDoc :=
  merge_sort bidNewer (filter (fun d => q (fst d) (snd d) = true) (map_to_list m)).

Definition findGigs (q : Id -> Gig -> bool) (m : gmap Id Gig) : list GigDoc :=
  merge_sort gigNewer (filter (fun d => q (fst d) (snd d) = true) (map_to_list m)).

(** [Bid.findOne(q)], used only for its truth value. *)
Definition existsBid (q : Id -> Bid -> bool) (m : gmap Id Bid) : bool :=
  bool_decide (map_Exists (fun k b => q k b = true) m).

(** [Bid.updateMany(q, {$set: {status}})] *)
Definition updateManyStatus (q : Id -> Bid -> bool) (s : BidStatus)
    (m : gmap Id Bid) : gmap Id Bid :=
  map_imap (fun k b => Some (if q k b then setStatus s b else b)) m.

(** [Bid.deleteMany(q)] *)
Definition deleteMany (q : Id -> Bid -> bool) (m : gmap Id Bid) : gmap Id Bid :=
  filter (fun d => q (fst d) (snd d) = false) m.

(** ** The request handlers *)

(** The store operations of [hireBid] at which a store error can surface,
    in the order of the code.  A commit that throws has persisted nothing. *)
Inductive StoreOp : Type :=
  | FindBid | FindGig | SaveGig | SaveBid | RejectOthers | Commit | ReadBack.

#[global] Instance StoreOp_eq_dec : EqDecision StoreOp.
Proof. solve_decision. Defined.

Definition throws (fault : option StoreOp) (op : StoreOp) : bool :=
  bool_decide (fault = Some op).

(** The writes of a transaction go to a working copy of the two
    collections; [commitTransaction] installs it, [abortTransaction]
    drops it. *)
Record Session : Type := mkSession {
  txGigs : gmap Id Gig;
  txBids : gmap Id Bid
}.

Definition startTransaction (st : State) : Session :=
  {| txGigs := gigs st; txBids := bids st |}.

Definition commitTransaction (s : Session) (st : State) : State :=
  {| gigs := txGigs s; bids := txBids s; fresh := fresh st; outbox := outbox st |}.

Definition emit (e : Hired) (st : State) : State :=
  {| gigs := gigs st; bids := bids st; fresh := fresh st;
     outbox := outbox st ++ [e] |}.

Definition quote : string := String (ascii_of_nat 34) EmptyString.

Definition hiredEvent (bidId : Id) (bid : Bid) (gid : Id) (gig : Gig) : Hired :=
  {| room := freelancerId bid;
     hiredMessage :=
       ("You have been hired for " +:+ quote +:+ title gig +:+ quote +:+ "!")%string;
     hiredGig := (gid, title gig);
     hiredBid := (bidId, price bid) |}.

(** The filter of the [updateMany] in [hireBid]:
    [{gigId: gig._id, _id: {$ne: bid._id}, status: "pending"}]. *)
Definition rejectQuery (bidId gid : Id) (k : Id) (b : Bid) : bool :=
  bool_decide (gigId b = gid) && negb (bool_decide (k = bidId))
  && bool_decide (status b = pending).

Section Handlers.

(** The validators of the Gig schema on title, description and budget: the
    schema is not among the sources, so they are a parameter. *)
Variable gigValid : string -> string -> Z -> bool.

(** [createBid]: POST /api/bids *)
Definition createBid (caller gid : Id) (msg : option string) (p : option Z)
    (st : State) : State * Response :=
  match gigs st !! gid with
  | None => (st, Json 404 (Failure "Gig not found"))
  | Some gig =>
      if negb (bool_decide (gigStatus gig = open)) then
        (st, Json 400 (Failure "This gig is no longer accepting bids"))
      else if bool_decide (ownerId gig = caller) then
        (st, Json 400 (Failure "You cannot bid on your own gig"))
      else if existsBid (fun _ b => bool_decide (gigId b = gid)
                                    && bool_decide (freelancerId b = caller))
                        (bids st) then
        (st, Json 400 (Failure "You have already submitted a bid for this gig"))
      else
        match newBid gid caller msg p (fresh st) with
        | None => (st, NextError ValidationError)
        | Some bid =>
            if validateBid bid then
              let id := fresh st in
              let st' := {| gigs := gigs st; bids := <[id := bid]> (bids st);
                            fresh := S (fresh st); outbox := outbox st |} in
              (st', Json 201 (WithBid "Bid submitted successfully"
                                      (pair id <$> bids st' !! id)))
            else (st, NextError ValidationError)
        end
  end.

(** [getBidsForGig]: GET /api/bids/:gigId *)
Definition getBidsForGig (caller gid : Id) (st : State) : State * Response :=
  match gigs st !! gid with
  | None => (st, Json 404 (Failure "Gig not found"))
  | Some gig =>
      if negb (bool_decide (ownerId gig = caller)) then
        (st, Json 403 (Failure "Not authorized to view bids for this gig"))
      else
        let found := findBids (fun _ b => bool_decide (gigId b = gid)) (bids st) in
        (st, Json 200 (BidList (length found) found))
  end.

(** [getMyBids]: GET /api/bids/my/bids *)
Definition getMyBids (caller : Id) (st : State) : State * Response :=
  let found := findBids (fun _ b => bool_decide (freelancerId b = caller)) (bids st) in
  (st, Json 200 (BidList (length found) found)).

(** [hireBid]: PATCH /api/bids/:bidId/hire.  [fault] names the store
    operation that throws, if one does.  Inside the [try], a throw reaches
    the [catch], which aborts the transaction and calls [next(error)]; once
    the transaction is committed, the [abortTransaction] of the [catch]
    throws in its turn and no answer is sent. *)
Definition hireBid (fault : option StoreOp) (caller bidId : Id) (st : State)
    : State * Response :=
  let session := startTransaction st in
  if throws fault FindBid then (st, NextError StoreError) else
  match txBids session !! bidId with
  | None => (st, Json 404 (Failure "Bid not found"))
  | Some bid =>
      if throws fault FindGig then (st, NextError StoreError) else
      match txGigs session !! gigId bid with
      | None => (st, Json 404 (Failure "Gig not found"))
      | Some gig =>
          let gid := gigId bid in
          if negb (bool_decide (ownerId gig = caller)) then
            (st, Json 403 (Failure "Not authorized to hire for this gig"))
          else if bool_decide (gigStatus gig = assigned) then
            (st, Json 400 (Failure "This gig has already been assigned to someone else"))
          else
            if throws fault SaveGig then (st, NextError StoreError) else
            let session :=
              {| txGigs := <[gid := assign bidId gig]> (txGigs session);
                 txBids := txBids session |} in
            if throws fault SaveBid then (st, NextError StoreError) else
            let session :=
              {| txGigs := txGigs session;
                 txBids := <[bidId := setStatus hired bid]> (txBids session) |} in
            if throws fault RejectOthers then (st, NextError StoreError) else
            let session :=
              {| txGigs := txGigs session;
                 txBids :=
                   updateManyStatus (rejectQuery bidId gid) rejected
                                    (txBids session) |} in
            if throws fault Commit then (st, NextError StoreError) else
            let st := commitTransaction session st in
            if throws fault ReadBack then (st, Unanswered) else
            let hiredBid := pair bidId <$> bids st !! bidId in
            (emit (hiredEvent bidId bid gid gig) st,
             Json 200 (WithBid "Freelancer hired successfully" hiredBid))
      end
  end.

(** [updateBid]: PUT /api/bids/:bidId.  Both content fields are assigned,
    from the request or from the document itself, and [save] validates
    them. *)
Definition updateBid (caller bidId : Id) (msg : option string) (p : option Z)
    (st : State) : State * Response :=
  match bids st !! bidId with
  | None => (st, Json 404 (Failure "Bid not found"))
  | Some bid =>
      if negb (bool_decide (freelancerId bid = caller)) then
        (st, Json 403 (Failure "Not authorized to update this bid"))
      else if negb (bool_decide (status bid = pending)) then
        (st, Json 400 (Failure "Cannot update a bid that is not pending"))
      else
        let bid := setMessage (orS msg (message bid)) bid in
        let bid := setPrice (orZ p (price bid)) bid in
        if validateBid bid then
          let st' := {| gigs := gigs st; bids := <[bidId := bid]> (bids st);
                        fresh := fresh st; outbox := outbox st |} in
          (st', Json 200 (WithBid "Bid updated successfully"
                                  (pair bidId <$> bids st' !! bidId)))
        else (st, NextError ValidationError)
  end.

(** [deleteBid]: DELETE /api/bids/:bidId *)
Definition deleteBid (caller bidId : Id) (st : State) : State * Response :=
  match bids st !! bidId with
  | None => (st, Json 404 (Failure "Bid not found"))
  | Some bid =>
      if negb (bool_decide (freelancerId bid = caller)) then
        (st, Json 403 (Failure "Not authorized to delete this bid"))
      else if negb (bool_decide (status bid = pending)) then
        (st, Json 400 (Failure "Cannot delete a bid that is not pending"))
      else
        ({| gigs := gigs st; bids := delete bidId (bids st);
            fresh := fresh st; outbox := outbox st |},
         Json 200 (Success "Bid deleted successfully"))
  end.

(** The [$regex] condition of [getGigs] on one gig. *)
Definition matchesSearch (p : list Text.Atom) (g : Gig) : bool :=
  Text.search p (title g) || Text.search p (description g).

(** [getGigs]: GET /api/gigs?search=&status=.  The result is [None] when the
    search term is a pattern outside the modelled fragment. *)
Definition getGigs (search status : option string) (st : State)
    : option (State * Response) :=
  let wanted := orS status "open" in
  let byStatus (g : Gig) := bool_decide (gigStatusName (gigStatus g) = wanted) in
  match orS search EmptyString with
  | EmptyString =>
      let found := findGigs (fun _ g => byStatus g) (gigs st) in
      Some (st, Json 200 (GigList (length found) found))
  | pat =>
      match Text.parse pat with
      | None => None
      | Some p =>
          let found :=
            findGigs (fun _ g => byStatus g && matchesSearch p g) (gigs st) in
          Some (st, Json 200 (GigList (length found) found))
      end
  end.

(** [getGigById]: GET /api/gigs/:id *)
Definition getGigById (id : Id) (st : State) : State * Response :=
  match gigs st !! id with
  | None => (st, Json 404 (Failure "Gig not found"))
  | Some gig => (st, Json 200 (WithGig None (Some (id, gig))))
  end.

(** [createGig]: POST /api/gigs *)
Definition createGig (caller : Id) (t d : option string) (b : option Z)
    (st : State) : State * Response :=
  match t, d, b with
  | Some t, Some d, Some b =>
      if gigValid t d b then
        let id := fresh st in
        let gig := {| title := t; description := d; budget := b;
                      ownerId := caller; gigStatus := open;
                      hiredBidId := None; gigCreatedAt := fresh st |} in
        let st' := {| gigs := <[id := gig]> (gigs st); bids := bids st;
                      fresh := S (fresh st); outbox := outbox st |} in
        (st', Json 201 (WithGig (Some "Gig created successfully"%string)
                                (pair id <$> gigs st' !! id)))
      else (st, NextError ValidationError)
  | _, _, _ => (st, NextError ValidationError)
  end.

(** [updateGig]: PUT /api/gigs/:id *)
Definition updateGig (caller id : Id) (t d : option string) (b : option Z)
    (st : State) : State * Response :=
  match gigs st !! id with
  | None => (st, Json 404 (Failure "Gig not found"))
  | Some gig =>
      if negb (bool_decide (ownerId gig = caller)) then
        (st, Json 403 (Failure "Not authorized to update this gig"))
      else if bool_decide (gigStatus gig = assigned) then
        (st, Json 400 (Failure "Cannot update an assigned gig"))
      else
        let gig := setGigContent (orS t (title gig)) (orS d (description gig))
                                 (orZ b (budget gig)) gig in
        if gigValid (title gig) (description gig) (budget gig) then
          let st' := {| gigs := <[id := gig]> (gigs st); bids := bids st;
                        fresh := fresh st; outbox := outbox st |} in
          (st', Json 200 (WithGig (Some "Gig updated successfully"%string)
                                  (pair id <$> gigs st' !! id)))
        else (st, NextError ValidationError)
  end.

(** [deleteGig]: DELETE /api/gigs/:id *)
Definition deleteGig (caller id : Id) (st : State) : State * Response :=
  match gigs st !! id with
  | None => (st, Json 404 (Failure "Gig not found"))
  | Some gig =>
      if negb (bool_decide (ownerId gig = caller)) then
        (st, Json 403 (Failure "Not authorized to delete this gig"))
      else
        let bids' := deleteMany (fun _ b => bool_decide (gigId b = id)) (bids st) in
        ({| gigs := delete id (gigs st); bids := bids';
            fresh := fresh st; outbox := outbox st |},
         Json 200 (Success "Gig and associated bids deleted successfully"))
  end.

(** [getMyGigs]: GET /api/gigs/my/gigs *)
Definition getMyGigs (caller : Id) (st : State) : State * Response :=
  let found := findGigs (fun _ g => bool_decide (ownerId g = caller)) (gigs st) in
  (st, Json 200 (GigList (length found) found)).

(** ** Routes *)

(** The requests of [bid.routes.js] and [gig.routes.js].  [user] is the
    user the credential of the request resolves to, if it resolves. *)
Inductive Request : Type :=
  | PostBid (user : option Id) (gid : Id) (msg : option string) (p : option Z)
  | GetMyBids (user : option Id)
  | GetBidsForGig (user : option Id) (gid : Id)
  | PatchHire (user : option Id) (bidId : Id) (fault : option StoreOp)
  | PutBid (user : option Id) (bidId : Id) (msg : option string) (p : option Z)
  | DeleteBid (user : option Id) (bidId : Id)
  | GetGigs (search status : option string)
  | GetMyGigs (user : option Id)
  | GetGig (id : Id)
  | PostGig (user : option Id) (t d : option string) (b : option Z)
  | PutGig (user : option Id) (id : Id) (t d : option string) (b : option Z)
  | DeleteGig (user : option Id) (id : Id).

(** [protect]: the handler runs only for a resolved caller. *)
Definition protect (user : option Id) (handler : Id -> State -> State * Response)
    (st : State) : State * Response :=
  match user with
  | None => (st, Json 401 (Failure "Not authorized, no token provided"))
  | Some caller => handler caller st
  end.

(** One request against the state; [None] only for a search pattern outside
    the modelled fragment. *)
Definition handle (r : Request) (st : State) : option (State * Response) :=
  match r with
  | PostBid u gid msg p => Some (protect u (fun c => createBid c gid msg p) st)
  | GetMyBids u => Some (protect u getMyBids st)
  | GetBidsForGig u gid => Some (protect u (fun c => getBidsForGig c gid) st)
  | PatchHire u bidId fault => Some (protect u (fun c => hireBid fault c bidId) st)
  | PutBid u bidId msg p => Some (protect u (fun c => updateBid c bidId msg p) st)
  | DeleteBid u bidId => Some (protect u (fun c => deleteBid c bidId) st)
  | GetGigs search status => getGigs search status st
  | GetMyGigs u => Some (protect u getMyGigs st)
  | GetGig id => Some (getGigById id st)
  | PostGig u t d b => Some (protect u (fun c => createGig c t d b) st)
  | PutGig u id t d b => Some (protect u (fun c => updateGig c id t d b) st)
  | DeleteGig u id => Some (protect u (fun c => deleteGig c id) st)
  end.

(** The state after a request; a request that only reads leaves it as it
    is, whatever it answers. *)
Definition step (st : State) (r : Request) : State :=
  match handle r st with
  | Some (st', _) => st'
  | None => st
  end.

Definition run (rs : list Request) (st : State) : State :=
  fold_left step rs st.

(** A state the system can be in: reached from the empty store by requests. *)
Definition reachable (st : State) : Prop :=
  exists rs, st = run rs initial.

End Handlers.

(** ** Invariants of the specification *)





(** ** Definitions used by the statements *)

(** The bids collection after the two bid writes of a hire. *)
Definition hireWrites (bidId : Id) (bid : Bid) (m : gmap Id Bid) : gmap Id Bid :=
  updateManyStatus (rejectQuery bidId (gigId bid)) rejected
                   (<[bidId := setStatus hired bid]> m).

(** The state a hire commits. *)
Definition committed (bidId : Id) (bid : Bid) (gig : Gig) (st : State) : State :=
  {| gigs := <[gigId bid := assign bidId gig]> (gigs st);
     bids := hireWrites bidId bid (bids st);
     fresh := fresh st; outbox := outbox st |}.

(** A stored bid has the form the schema gives it. *)
Definition bidStored (b : Bid) : Prop :=
  Text.trim (message b) = message b /\ validateBid b = true.

(** The invariant that carries I1 and I2 through every request. *)
Record Inv (st : State) : Prop := mkInv {
  inv_bid_fresh : forall k b, bids st !! k = Some b -> (k < fresh st)%nat;
  inv_gig_fresh : forall k g, gigs st !! k = Some g -> (k < fresh st)%nat;
  inv_bid_gig : forall k b, bids st !! k = Some b -> is_Some (gigs st !! gigId b);
  inv_bid_schema : forall k b, bids st !! k = Some b -> bidStored b;
  inv_open : forall gid g k b,
    gigs st !! gid = Some g -> gigStatus g = open ->
    bids st !! k = Some b -> gigId b = gid -> status b = pending;
  inv_assigned : forall gid g,
    gigs st !! gid = Some g -> gigStatus g = assigned ->
    exists h bh, hiredBidId g = Some h /\ bids st !! h = Some bh /\
      gigId bh = gid /\ status bh = hired /\
      forall k b, bids st !! k = Some b -> gigId b = gid -> k <> h ->
                  status b = rejected
}.

(** JavaScript falsiness of an optional string and of an optional number. *)
Definition falsyS (a : option string) : bool :=
  match a with
  | Some EmptyString | None => true
  | Some _ => false
  end.

Definition falsyZ (a : option Z) : bool :=
  match a with
  | Some 0%Z | None => true
  | Some _ => false
  end.

(** The scenario of the specification: gig 0 of owner 1, open, budget 5000,
    with the pending bids 1 (freelancer 2, 4000) and 2 (freelancer 3, 4500). *)
Definition scenarioGig : Gig :=
  {| title := "Build a React Website";
     description := "Need a modern React website with responsive design";
     budget := 5000; ownerId := 1; gigStatus := open; hiredBidId := None;
     gigCreatedAt := 0 |}.

Definition scenarioBid1 : Bid :=
  {| gigId := 0; freelancerId := 2;
     message := "I can complete this project in 2 weeks";
     price := 4000; status := pending; createdAt := 1 |}.

Definition scenarioBid2 : Bid :=
  {| gigId := 0; freelancerId := 3;
     message := "I can complete this project in 3 weeks";
     price := 4500; status := pending; createdAt := 2 |}.

Definition scenario : State :=
  {| gigs := {[ 0%nat := scenarioGig ]};
     bids := {[ 1%nat := scenarioBid1; 2%nat := scenarioBid2 ]};
     fresh := 3; outbox := [] |}.

(** A validator for the examples: the budget is positive. *)
Definition positiveBudget (t d : string) (b : Z) : bool := (0 <? b)%Z.

(** The requests that build the scenario from the empty store. *)
Definition scenarioRequests : list Request :=
  [ PostGig (Some 1%nat) (Some (title scenarioGig))
            (Some (description scenarioGig)) (Some 5000%Z);
    PostBid (Some 2%nat) 0%nat (Some (message scenarioBid1)) (Some 4000%Z);
    PostBid (Some 3%nat) 0%nat (Some (message scenarioBid2)) (Some 4500%Z) ].

(** A string is empty or starts with a character that [trim] keeps. *)
Definition headOk (s : string) : Prop :=
  match s with
  | EmptyString => True
  | String c _ => Text.is_space c = false
  end.

(** ** The auth gate ([middleware/auth.middleware.js]) *)

Module Auth.

(** [s.split(sep)] for a separator of one character. *)
Fixpoint split (sep : ascii) (s : string) : list string :=
  match s with
  | EmptyString => [EmptyString]
  | String c r =>
      if bool_decide (c = sep) then EmptyString :: split sep r
      else match split sep r with
           | h :: t => String c h :: t
           | [] => [String c EmptyString]
           end
  end.

Definition space : ascii := ascii_of_nat 32.

(** The User documents; the handlers read only the [_id] of [req.user]. *)
Record User : Type := mkUser {
  name : string;
  email : string;
  password : string
}.

(** What the middleware reads of a request: [req.cookies?.token] and
    [req.headers.authorization]. *)
Record Credentials : Type := mkCredentials {
  cookieToken : option string;
  authorization : option string
}.

(** The token the middleware settles on: the cookie's, and the second word
    of the Authorization header only when the cookie gives none and the
    header starts with [Bearer]. *)
Definition token (req : Credentials) : option string :=
  let token := cookieToken req in
  match authorization req with
  | Some header =>
      if falsyS token && String.prefix "Bearer" header
      then split space header !! 1%nat
      else token
  | None => token
  end.

Section Gate.

(** [jwt.verify(token, secret)]: [None] when it throws; otherwise the
    [userId] of the payload, if the payload has one. *)
Variable jwtVerify : string -> option (option Id).

(** [protect]: [next] runs for the user the token resolves to. *)
Definition protect (users : gmap Id User) (req : Credentials)
    (next : Id -> State -> State * Response) (st : State) : State * Response :=
  match token req with
  | None | Some EmptyString =>
      (st, Json 401 (Failure "Not authorized, no token provided"))
  | Some t =>
      match jwtVerify t with
      | None => (st, Json 401 (Failure "Not authorized, token invalid or expired"))
      | Some decoded =>
          (* User.findById(decoded.userId) *)
          match decoded ≫= (fun userId => pair userId <$> users !! userId) with
          | None => (st, Json 401 (Failure "Not authorized, user not found"))
          | Some (userId, _) => next userId st
          end
      end
  end.


End Gate.

End Auth.

(** ** The socket rooms (the server entry point) *)

Module Sockets.

(** What reaches the server from the sockets: a connection, the [join]
    event of a connected socket with the user id it carries, a
    disconnection. *)
Inductive Event : Type :=
  | Connection (socket : nat)
  | Join (socket : nat) (userId : Id)
  | Disconnect (socket : nat).

(** For each connected socket, the users whose room [user:<id>] it joined. *)
Definition on (e : Event) (rooms : gmap nat (gset Id)) : gmap nat (gset Id) :=
  match e with
  | Connection s => <[s := ∅]> rooms
  | Join s u => alter (fun joined => {[u]} ∪ joined) s rooms
  | Disconnect s => delete s rooms
  end.

Definition after (events : list Event) : gmap nat (gset Id) :=
  fold_left (fun rooms e => on e rooms) events ∅.

(** [io.to("user:" + u)]: the sockets an event for [u] is emitted to. *)
Definition to (u : Id) (rooms : gmap nat (gset Id)) : gset nat :=
  dom (filter (fun sr => u ∈ snd sr) rooms).

End Sockets.

(** ** Further invariants of the ledger *)

(** What the checks of [createBid] and the guards of the other handlers keep
    true of the store. *)
Record Ledger (st : State) : Prop := mkLedger {
  led_unique : forall k1 k2 b1 b2,
    bids st !! k1 = Some b1 -> bids st !! k2 = Some b2 ->
    gigId b1 = gigId b2 -> freelancerId b1 = freelancerId b2 -> k1 = k2;
  led_not_owner : forall k b g,
    bids st !! k = Some b -> gigs st !! gigId b = Some g ->
    freelancerId b <> ownerId g;
  led_open_unhired : forall gid g,
    gigs st !! gid = Some g -> gigStatus g = open -> hiredBidId g = None;
  led_bid_time : forall k b, bids st !! k = Some b -> (createdAt b < fresh st)%nat;
  led_gig_time : forall k g, gigs st !! k = Some g -> (gigCreatedAt g < fresh st)%nat
}.


(** A string of whitespace only, and a string without a space. *)
Definition allSpace (s : string) : bool :=
  forallb Text.is_space (list_ascii_of_string s).

Definition noSpace (s : string) : bool :=
  forallb (fun c => negb (bool_decide (c = Auth.space))) (list_ascii_of_string s).

(** An Authorization header: a scheme, a space, a token, and possibly
    more words. *)
Definition bearerHeader (scheme tok : string) (rest : option string) : string :=
  match rest with
  | None => scheme +:+ String Auth.space tok
  | Some r => scheme +:+ String Auth.space (tok +:+ String Auth.space r)
  end.

(** The last character of a string. *)
Fixpoint lastChar (s : string) : option ascii :=
  match s with
  | EmptyString => None
  | String c EmptyString => Some c
  | String _ r => lastChar r
  end.

(** A string with its letters in lower case. *)
Fixpoint lowerCase (s : string) : string :=
  match s with
  | EmptyString => EmptyString
  | String c r => String (Text.lower c) (lowerCase r)
  end.

(** For the examples: a verifier that knows one token, and one user. *)
Definition exampleVerify (t : string) : option (option Id) :=
  if bool_decide (t = "signed-for-1"%string) then Some (Some 1%nat) else None.

Definition exampleUsers : gmap Id Auth.User :=
  {[ 1%nat := {| Auth.name := "Owner"; Auth.email := "owner@example.com";
                 Auth.password := "$2a$10$hash" |} ]}.

(** Newest first is a total preorder. *)
#[global] Instance bidNewer_total : Total bidNewer.
Proof. intros x y. unfold bidNewer. lia. Qed.
#[global] Instance bidNewer_trans : Transitive bidNewer.
Proof. intros x y z. unfold bidNewer. lia. Qed.
#[global] Instance gigNewer_total : Total gigNewer.
Proof. intros x y. unfold gigNewer. lia. Qed.
#[global] Instance gigNewer_trans : Transitive gigNewer.
Proof. intros x y z. unfold gigNewer. lia. Qed.

(** What one request can do to a bid of the store: leave it; delete it, for
    its freelancer, while it is pending; delete it with its gig, for the
    gig's owner; give it a new message and price, for its freelancer, while
    it is pending; move it from pending to hired (the bid of the hire) or to
    rejected (the others), for the gig's owner. *)
Definition bidEffect (st : State) (r : Request) (k : Id) (b : Bid)
    (after : option Bid) : Prop :=
  after = Some b
  \/ (after = None /\ status b = pending /\ r = DeleteBid (Some (freelancerId b)) k)
  \/ (after = None /\ exists g, gigs st !! gigId b = Some g
                                /\ r = DeleteGig (Some (ownerId g)) (gigId b))
  \/ (exists msg p,
        r = PutBid (Some (freelancerId b)) k msg p /\ status b = pending
        /\ after = Some (setPrice (orZ p (price b))
                                  (setMessage (orS msg (message b)) b)))
  \/ (exists g bidId fault,
        gigs st !! gigId b = Some g
        /\ r = PatchHire (Some (ownerId g)) bidId fault /\ status b = pending
        /\ after = Some (setStatus (if decide (k = bidId) then hired else rejected) b)).

(** What one request can do to a gig of the store: leave it; delete it, for
    its owner; give it new content, for its owner, while it is open; assign
    it to a bid on it, for its owner, while it is open. *)
Definition gigEffect (st : State) (r : Request) (k : Id) (g : Gig)
    (after : option Gig) : Prop :=
  after = Some g
  \/ (after = None /\ r = DeleteGig (Some (ownerId g)) k)
  \/ (exists t d b,
        r = PutGig (Some (ownerId g)) k t d b /\ gigStatus g = open
        /\ after = Some (setGigContent (orS t (title g)) (orS d (description g))
                                       (orZ b (budget g)) g))
  \/ (exists bidId fault bid,
        r = PatchHire (Some (ownerId g)) bidId fault /\ gigStatus g = open
        /\ bids st !! bidId = Some bid /\ gigId bid = k
        /\ after = Some (assign bidId g)).

(** The scenario continued: the owner hires the first bid. *)
Definition hiredRequests : list Request :=
  scenarioRequests ++ [PatchHire (Some 1%nat) 1%nat None].

(** * Properties *)

(** ** Text *)

Module TextFacts.
Import Text.

Lemma trim_left_headOk s : headOk (trim_left s).
Proof.
  induction s as [|c r IH]; cbn; [done|].
  destruct (is_space c) eqn:Hc; [done|]. by cbn.
Qed.

Lemma trim_left_fixed s : headOk s -> trim_left s = s.
Proof. destruct s as [|c r]; cbn; [done|]. by intros ->. Qed.

Lemma trim_right_headOk s : headOk s -> headOk (trim_right s).
Proof.
  destruct s as [|c r]; cbn; [done|]. intros Hc.
  destruct (trim_right r); cbn; by rewrite ?Hc.
Qed.

Lemma trim_right_idem s : trim_right (trim_right s) = trim_right s.
Proof.
  induction s as [|c r IH]; cbn; [done|].
  destruct (trim_right r) as [|c' r'] eqn:Hr.
  - destruct (is_space c) eqn:Hc; cbn; by rewrite ?Hc.
  - change (trim_right (String c (String c' r'))) with
      (match trim_right (String c' r') with
       | EmptyString => if is_space c then EmptyString else String c EmptyString
       | r'' => String c r''
       end).
    by rewrite IH.
Qed.

(** The setter of the message field gives a fixed point of itself. *)
Lemma trim_idem s : trim (trim s) = trim s.
Proof.
  unfold trim.
  rewrite (trim_left_fixed (trim_right (trim_left s))).
  - apply trim_right_idem.
  - apply trim_right_headOk, trim_left_headOk.
Qed.

(** A term without metacharacters parses to its own characters. *)
Lemma plain_parse pat :
  plain pat = true -> parse pat = Some (Lit <$> list_ascii_of_string pat).
Proof.
  unfold plain. induction pat as [|c r IH]; [done|].
  cbn [list_ascii_of_string forallb parse fmap list_fmap].
  intros [Hc Hr]%andb_true_iff. apply negb_true_iff in Hc.
  destruct (bool_decide (c = dot)) eqn:Hd.
  - apply bool_decide_eq_true in Hd. subst c. by vm_compute in Hc.
  - by rewrite Hc, (IH Hr).
Qed.

Lemma match_here_lits pat s :
  match_here (Lit <$> list_ascii_of_string pat) s = prefix_ci pat s.
Proof.
  revert s. induction pat as [|c r IH]; intros s; cbn; [done|].
  destruct s as [|d s']; [done|]. cbn. by rewrite IH.
Qed.

(** On such a term the pattern search is the substring test. *)
Lemma search_lits pat s :
  search (Lit <$> list_ascii_of_string pat) s = contains_ci s pat.
Proof.
  induction s as [|d s' IH]; cbn.
  - by rewrite match_here_lits.
  - by rewrite match_here_lits, IH.
Qed.

End TextFacts.

(** ** The store operations *)

Lemma lookup_updateManyStatus q s (m : gmap Id Bid) k :
  updateManyStatus q s m !! k
  = (fun b => if q k b then setStatus s b else b) <$> m !! k.
Proof.
  unfold updateManyStatus. rewrite map_lookup_imap.
  by destruct (m !! k).
Qed.

Lemma lookup_deleteMany_Some q (m : gmap Id Bid) k b :
  deleteMany q m !! k = Some b <-> m !! k = Some b /\ q k b = false.
Proof. unfold deleteMany. by rewrite map_lookup_filter_Some. Qed.

Lemma existsBid_true q (m : gmap Id Bid) :
  existsBid q m = true <-> exists k b, m !! k = Some b /\ q k b = true.
Proof. unfold existsBid. by rewrite bool_decide_eq_true. Qed.

Lemma elem_of_findBids q (m : gmap Id Bid) k b :
  (k, b) ∈ findBids q m <-> m !! k = Some b /\ q k b = true.
Proof.
  unfold findBids. rewrite merge_sort_Permutation, list_elem_of_filter.
  rewrite elem_of_map_to_list. cbn. tauto.
Qed.

Lemma elem_of_findGigs q (m : gmap Id Gig) k g :
  (k, g) ∈ findGigs q m <-> m !! k = Some g /\ q k g = true.
Proof.
  unfold findGigs. rewrite merge_sort_Permutation, list_elem_of_filter.
  rewrite elem_of_map_to_list. cbn. tauto.
Qed.

(** ** The hire transition *)

Lemma hireWrites_hired bidId bid m :
  hireWrites bidId bid m !! bidId = Some (setStatus hired bid).
Proof.
  unfold hireWrites. rewrite lookup_updateManyStatus, lookup_insert_eq. cbn.
  unfold rejectQuery. rewrite (bool_decide_eq_true_2 (bidId = bidId)) by done.
  by rewrite andb_false_r.
Qed.

Lemma hireWrites_other bidId bid m k :
  k <> bidId ->
  hireWrites bidId bid m !! k
  = (fun b => if bool_decide (gigId b = gigId bid) && bool_decide (status b = pending)
              then setStatus rejected b else b) <$> m !! k.
Proof.
  intros Hk. unfold hireWrites.
  rewrite lookup_updateManyStatus, lookup_insert_ne by done.
  destruct (m !! k) as [b|]; [|done]. cbn. unfold rejectQuery.
  rewrite (bool_decide_eq_false_2 (k = bidId)) by done.
  by rewrite andb_true_r.
Qed.

(** What [hireBid] does once the four checks pass, fault by fault. *)
Lemma hireBid_run fault caller bidId bid gig st :
  bids st !! bidId = Some bid ->
  gigs st !! gigId bid = Some gig ->
  ownerId gig = caller ->
  gigStatus gig = open ->
  hireBid fault caller bidId st =
    match fault with
    | None =>
        (emit (hiredEvent bidId bid (gigId bid) gig) (committed bidId bid gig st),
         Json 200 (WithBid "Freelancer hired successfully"
                           (Some (bidId, setStatus hired bid))))
    | Some ReadBack => (committed bidId bid gig st, Unanswered)
    | Some _ => (st, NextError StoreError)
    end.
Proof.
  intros Hb Hg Ho Hs. unfold hireBid, startTransaction. cbn [txBids txGigs].
  destruct fault as [[]|]; cbn [throws]; try done;
    rewrite ?bool_decide_eq_false_2 by done; cbn iota;
    rewrite ?Hb; try done; rewrite ?Hg;
    rewrite (bool_decide_eq_true_2 _ Ho),
            (bool_decide_eq_false_2 (gigStatus gig = assigned)) by congruence;
    cbn [negb]; try done.
  unfold commitTransaction. cbn.
  fold (hireWrites bidId bid (bids st)).
  by rewrite hireWrites_hired.
Qed.

(** Expose the checks of [hireBid] on the working copy of the session. *)
Ltac open_hire :=
  unfold hireBid, startTransaction, throws; cbn [txBids txGigs].

(** The four checks, in the order of the code, on a store that answers. *)
Lemma hireBid_bid_missing fault caller bidId st :
  fault <> Some FindBid ->
  bids st !! bidId = None ->
  hireBid fault caller bidId st = (st, Json not_found (Failure "Bid not found")).
Proof.
  intros Hf Hb. open_hire.
  by rewrite (bool_decide_eq_false_2 _ Hf), Hb.
Qed.

Lemma hireBid_gig_missing fault caller bidId bid st :
  fault <> Some FindBid -> fault <> Some FindGig ->
  bids st !! bidId = Some bid ->
  gigs st !! gigId bid = None ->
  hireBid fault caller bidId st = (st, Json not_found (Failure "Gig not found")).
Proof.
  intros Hf Hf' Hb Hg. open_hire.
  by rewrite (bool_decide_eq_false_2 _ Hf), Hb, (bool_decide_eq_false_2 _ Hf'), Hg.
Qed.

Lemma hireBid_not_owner fault caller bidId bid gig st :
  fault <> Some FindBid -> fault <> Some FindGig ->
  bids st !! bidId = Some bid ->
  gigs st !! gigId bid = Some gig ->
  ownerId gig <> caller ->
  hireBid fault caller bidId st
  = (st, Json forbidden (Failure "Not authorized to hire for this gig")).
Proof.
  intros Hf Hf' Hb Hg Ho. open_hire.
  by rewrite (bool_decide_eq_false_2 _ Hf), Hb, (bool_decide_eq_false_2 _ Hf'), Hg,
    (bool_decide_eq_false_2 _ Ho).
Qed.

Lemma hireBid_assigned fault caller bidId bid gig st :
  fault <> Some FindBid -> fault <> Some FindGig ->
  bids st !! bidId = Some bid ->
  gigs st !! gigId bid = Some gig ->
  ownerId gig = caller ->
  gigStatus gig = assigned ->
  hireBid fault caller bidId st
  = (st, Json conflict
              (Failure "This gig has already been assigned to someone else")).
Proof.
  intros Hf Hf' Hb Hg Ho Hs. open_hire.
  by rewrite (bool_decide_eq_false_2 _ Hf), Hb, (bool_decide_eq_false_2 _ Hf'), Hg,
    (bool_decide_eq_true_2 _ Ho), (bool_decide_eq_true_2 _ Hs).
Qed.

(** Either nothing is persisted, or the checks passed and the hire is. *)
Lemma hireBid_cases fault caller bidId st :
  fst (hireBid fault caller bidId st) = st \/
  exists bid gig, bids st !! bidId = Some bid /\ gigs st !! gigId bid = Some gig /\
    ownerId gig = caller /\ gigStatus gig = open /\
    (fault = Some ReadBack /\
     hireBid fault caller bidId st
     = (committed bidId bid gig st, Unanswered) \/
     fault = None /\
     fst (hireBid fault caller bidId st)
     = emit (hiredEvent bidId bid (gigId bid) gig) (committed bidId bid gig st)).
Proof.
  destruct (bids st !! bidId) as [bid|] eqn:Hb.
  2:{ left. unfold hireBid, startTransaction. cbn [txBids]. rewrite Hb.
      by destruct (throws fault FindBid). }
  destruct (gigs st !! gigId bid) as [gig|] eqn:Hg.
  2:{ left. unfold hireBid, startTransaction. cbn [txBids txGigs]. rewrite Hb, Hg.
      by destruct (throws fault FindBid), (throws fault FindGig). }
  destruct (decide (ownerId gig = caller)) as [Ho|Ho].
  2:{ left. unfold hireBid, startTransaction. cbn [txBids txGigs]. rewrite Hb, Hg.
      rewrite (bool_decide_eq_false_2 _ Ho).
      by destruct (throws fault FindBid), (throws fault FindGig). }
  destruct (gigStatus gig) eqn:Hs.
  - rewrite (hireBid_run fault caller bidId bid gig st Hb Hg Ho Hs).
    destruct fault as [[]|]; cbn [fst]; eauto 12.
  - left. unfold hireBid, startTransaction. cbn [txBids txGigs]. rewrite Hb, Hg.
    rewrite (bool_decide_eq_true_2 _ Ho), Hs. cbn.
    by destruct (throws fault FindBid), (throws fault FindGig).
Qed.

(** A store error inside the transaction persists nothing. *)
Lemma hireBid_fault_in_transaction op caller bidId st :
  op <> ReadBack ->
  fst (hireBid (Some op) caller bidId st) = st.
Proof.
  intros Hop. destruct (hireBid_cases (Some op) caller bidId st)
    as [H|(bid & gig & _ & _ & _ & _ & [[Hf _]|[Hf _]])]; [done| |]; congruence.
Qed.

(** Whatever the fault, an answer other than 200 before the commit leaves
    the store as it was. *)
Lemma hireBid_error_unchanged fault caller bidId st :
  fault <> Some ReadBack ->
  statusOf (snd (hireBid fault caller bidId st)) <> Some 200%nat ->
  hireBid fault caller bidId st = (st, snd (hireBid fault caller bidId st)).
Proof.
  intros Hf Hr.
  destruct (hireBid_cases fault caller bidId st)
    as [H|(bid & gig & Hb & Hg & Ho & Hs & [[Hf' _]|[Hf' _]])]; [|done|].
  - rewrite <- H at 2. by destruct (hireBid _ _ _ _).
  - subst fault. rewrite (hireBid_run None caller bidId bid gig st Hb Hg Ho Hs) in Hr.
    by destruct Hr.
Qed.

(** ** The invariant *)

Lemma Inv_initial : Inv initial.
Proof. split; cbn; intros; simplify_map_eq. Qed.



Lemma Inv_emit e st : Inv st -> Inv (emit e st).
Proof. intros []. by split. Qed.

(** How a bid of the committed state relates to the bid it was. *)
Lemma hireWrites_inv bidId bid st gig k b :
  Inv st -> bids st !! bidId = Some bid -> gigs st !! gigId bid = Some gig ->
  gigStatus gig = open ->
  hireWrites bidId bid (bids st) !! k = Some b ->
  exists b0, bids st !! k = Some b0 /\ gigId b = gigId b0 /\
    message b = message b0 /\ price b = price b0 /\
    (k = bidId -> b = setStatus hired bid) /\
    (k <> bidId -> gigId b0 = gigId bid -> status b = rejected) /\
    (k <> bidId -> gigId b0 <> gigId bid -> b = b0).
Proof.
  intros HI Hb Hg Hs. destruct (decide (k = bidId)) as [->|Hk].
  - rewrite hireWrites_hired. intros [= <-]. exists bid. by repeat split.
  - rewrite hireWrites_other by done.
    destruct (bids st !! k) as [b0|] eqn:Hb0; [|done].
    cbn. intros [= <-]. exists b0.
    case_bool_decide as Hg0; cbn [andb].
    + pose proof (inv_open st HI _ _ _ _ Hg Hs Hb0 Hg0) as Hp.
      rewrite (bool_decide_eq_true_2 _ Hp). by repeat split.
    + by repeat split.
Qed.

Lemma Inv_committed bidId bid gig st :
  Inv st -> bids st !! bidId = Some bid -> gigs st !! gigId bid = Some gig ->
  gigStatus gig = open -> Inv (committed bidId bid gig st).
Proof.
  intros HI Hb Hg Hs.
  pose proof (fun k b => hireWrites_inv bidId bid st gig k b HI Hb Hg Hs) as Hlk.
  split; cbn [committed gigs bids fresh].
  - intros k b Hk. destruct (Hlk k b Hk) as (b0 & Hb0 & _).
    eapply inv_bid_fresh; eauto.
  - intros k g. rewrite lookup_insert. case_decide as Hk.
    + subst. intros _. eapply inv_gig_fresh; eauto.
    + eapply inv_gig_fresh; eauto.
  - intros k b Hk. destruct (Hlk k b Hk) as (b0 & Hb0 & Hgb & _). rewrite Hgb.
    rewrite lookup_insert. case_decide; [done|]. eapply inv_bid_gig; eauto.
  - intros k b Hk. destruct (Hlk k b Hk) as (b0 & Hb0 & _ & Hm & Hp & _).
    destruct (inv_bid_schema st HI k b0 Hb0) as [Ht Hv].
    unfold bidStored, validateBid in *. by rewrite Hm, Hp.
  - intros gid g k b. rewrite lookup_insert. case_decide as Hk.
    + by intros [= <-].
    + intros Hgg Hst Hkb Hgb.
      destruct (Hlk k b Hkb) as (b0 & Hb0 & Hgb0 & _ & _ & H1 & H2 & H3).
      assert (k <> bidId) as Hne.
      { intros ->. rewrite Hb in Hb0. injection Hb0 as <-. congruence. }
      assert (b = b0) as -> by (apply H3; congruence). eapply inv_open; eauto.
  - intros gid g. rewrite lookup_insert. case_decide as Hk.
    + intros [= <-] _. subst gid. exists bidId, (setStatus hired bid). cbn.
      split; [done|]. split; [apply hireWrites_hired|]. split; [done|].
      split; [done|].
      intros k b Hkb Hgb Hne.
      destruct (Hlk k b Hkb) as (b0 & Hb0 & Hgb0 & _ & _ & H1 & H2 & H3).
      apply H2; congruence.
    + intros Hgg Hst. destruct (inv_assigned st HI gid g Hgg Hst)
        as (h & bh & Hh & Hbh & Hgh & Hsh & Hrest).
      assert (h <> bidId) as Hne.
      { intros ->. rewrite Hb in Hbh. injection Hbh as <-. congruence. }
      exists h, bh. split; [done|]. split.
      { rewrite hireWrites_other, Hbh by done. cbn.
        by rewrite (bool_decide_eq_false_2 (gigId bh = gigId bid)) by congruence. }
      split; [done|]. split; [done|].
      intros k b Hkb Hgb Hkh.
      destruct (Hlk k b Hkb) as (b0 & Hb0 & Hgb0 & _ & _ & H1 & H2 & H3).
      assert (k <> bidId) as Hne'.
      { intros ->. rewrite Hb in Hb0. injection Hb0 as <-. congruence. }
      assert (b = b0) as -> by (apply H3; congruence). eapply Hrest; eauto.
Qed.

Lemma Inv_hireBid fault caller bidId st :
  Inv st -> Inv (fst (hireBid fault caller bidId st)).
Proof.
  intros HI. destruct (hireBid_cases fault caller bidId st)
    as [->|(bid & gig & Hb & Hg & _ & Hs & [[_ ->]|[_ ->]])]; [done| |].
  - by apply Inv_committed.
  - by apply Inv_emit, Inv_committed.
Qed.

Lemma Inv_createBid caller gid msg p st :
  Inv st -> Inv (fst (createBid caller gid msg p st)).
Proof.
  intros HI. unfold createBid.
  destruct (gigs st !! gid) as [gig|] eqn:Hg; [|done].
  case_bool_decide as Hs; cbn [negb]; [|done].
  case_bool_decide as Ho; [done|].
  destruct (existsBid _ _); [done|].
  destruct (newBid gid caller msg p (fresh st)) as [bid|] eqn:Hn; [|done].
  destruct (validateBid bid) eqn:Hv; [|done]. cbn [fst].
  assert (gigId bid = gid /\ status bid = pending /\
          Text.trim (message bid) = message bid) as (Hgb & Hsb & Htb).
  { unfold newBid in Hn. destruct msg, p; try done. injection Hn as <-.
    repeat split. cbn. apply TextFacts.trim_idem. }
  split; cbn [gigs bids fresh].
  - intros k b. rewrite lookup_insert. case_decide; [lia|].
    intros Hk. pose proof (inv_bid_fresh st HI k b Hk). lia.
  - intros k g Hk. pose proof (inv_gig_fresh st HI k g Hk). lia.
  - intros k b. rewrite lookup_insert. case_decide.
    + intros [= <-]. by rewrite Hgb, Hg.
    + eapply inv_bid_gig; eauto.
  - intros k b. rewrite lookup_insert. case_decide.
    + by intros [= <-].
    + eapply inv_bid_schema; eauto.
  - intros gid' g k b Hgg Hst. rewrite lookup_insert. case_decide.
    + by intros [= <-].
    + intros. eapply inv_open; eauto.
  - intros gid' g Hgg Hst.
    destruct (inv_assigned st HI gid' g Hgg Hst)
      as (h & bh & Hh & Hbh & Hgh & Hsh & Hrest).
    exists h, bh. split; [done|]. split.
    { rewrite lookup_insert_ne; [done|].
      pose proof (inv_bid_fresh st HI h bh Hbh). lia. }
    split; [done|]. split; [done|].
    intros k b. rewrite lookup_insert. case_decide.
    + intros [= <-] Hx. congruence.
    + intros. eapply Hrest; eauto.
Qed.

Lemma Inv_updateBid caller bidId msg p st :
  Inv st -> Inv (fst (updateBid caller bidId msg p st)).
Proof.
  intros HI. unfold updateBid.
  destruct (bids st !! bidId) as [bid|] eqn:Hb; [|done].
  case_bool_decide as Ho; cbn [negb]; [|done].
  case_bool_decide as Hs; cbn [negb]; [|done].
  destruct (validateBid _) eqn:Hv; [|done]. cbn [fst].
  set (bid' := setPrice _ _) in *.
  assert (gigId bid' = gigId bid /\ status bid' = status bid /\
          Text.trim (message bid') = message bid') as (Hgb & Hsb & Htb).
  { repeat split. cbn. apply TextFacts.trim_idem. }
  clearbody bid'.
  split; cbn [gigs bids fresh].
  - intros k b. rewrite lookup_insert. case_decide.
    + subst. intros _. eapply inv_bid_fresh; eauto.
    + eapply inv_bid_fresh; eauto.
  - eapply inv_gig_fresh; eauto.
  - intros k b. rewrite lookup_insert. case_decide.
    + intros [= <-]. rewrite Hgb. eapply inv_bid_gig; eauto.
    + eapply inv_bid_gig; eauto.
  - intros k b. rewrite lookup_insert. case_decide.
    + by intros [= <-].
    + eapply inv_bid_schema; eauto.
  - intros gid' g k b Hgg Hst. rewrite lookup_insert. case_decide.
    + intros [= <-]. congruence.
    + intros. eapply inv_open; eauto.
  - intros gid' g Hgg Hst.
    destruct (inv_assigned st HI gid' g Hgg Hst)
      as (h & bh & Hh & Hbh & Hgh & Hsh & Hrest).
    exists h, bh. split; [done|]. split.
    { rewrite lookup_insert_ne; [done|]. intros ->. congruence. }
    split; [done|]. split; [done|].
    intros k b. rewrite lookup_insert. case_decide.
    + intros [= <-] Hx Hk. subst k. rewrite Hsb, <- (Hrest bidId bid); congruence.
    + intros. eapply Hrest; eauto.
Qed.

Lemma Inv_deleteBid caller bidId st :
  Inv st -> Inv (fst (deleteBid caller bidId st)).
Proof.
  intros HI. unfold deleteBid.
  destruct (bids st !! bidId) as [bid|] eqn:Hb; [|done].
  case_bool_decide as Ho; cbn [negb]; [|done].
  case_bool_decide as Hs; cbn [negb]; [|done]. cbn [fst].
  split; cbn [gigs bids fresh].
  - intros k b [? ?]%lookup_delete_Some. eapply inv_bid_fresh; eauto.
  - eapply inv_gig_fresh; eauto.
  - intros k b [? ?]%lookup_delete_Some. eapply inv_bid_gig; eauto.
  - intros k b [? ?]%lookup_delete_Some. eapply inv_bid_schema; eauto.
  - intros gid' g k b Hgg Hst [? ?]%lookup_delete_Some. eapply inv_open; eauto.
  - intros gid' g Hgg Hst.
    destruct (inv_assigned st HI gid' g Hgg Hst)
      as (h & bh & Hh & Hbh & Hgh & Hsh & Hrest).
    exists h, bh. split; [done|]. split.
    { rewrite lookup_delete_ne; [done|]. intros ->. congruence. }
    split; [done|]. split; [done|].
    intros k b [? ?]%lookup_delete_Some. eapply Hrest; eauto.
Qed.

Section Preservation.

Variable gigValid : string -> string -> Z -> bool.

Lemma Inv_createGig caller t d b st :
  Inv st -> Inv (fst (createGig gigValid caller t d b st)).
Proof.
  intros HI. unfold createGig.
  destruct t as [t|], d as [d|], b as [b|]; try done.
  destruct (gigValid t d b); [|done]. cbn [fst].
  assert (Hnew : forall k b0, bids st !! k = Some b0 -> gigId b0 <> fresh st).
  { intros k b0 Hk Heq. destruct (inv_bid_gig st HI k b0 Hk) as [g Hg].
    pose proof (inv_gig_fresh st HI _ _ Hg). lia. }
  split; cbn [gigs bids fresh].
  - intros k b0 Hk. pose proof (inv_bid_fresh st HI k b0 Hk). lia.
  - intros k g. rewrite lookup_insert. case_decide; [lia|].
    intros Hk. pose proof (inv_gig_fresh st HI k g Hk). lia.
  - intros k b0 Hk. rewrite lookup_insert_ne by (symmetry; eauto).
    eapply inv_bid_gig; eauto.
  - eapply inv_bid_schema; eauto.
  - intros gid g k b0. rewrite lookup_insert. case_decide.
    + subst. intros _ _ Hk Hg. by destruct (Hnew k b0 Hk).
    + intros. eapply inv_open; eauto.
  - intros gid g. rewrite lookup_insert. case_decide.
    + by intros [= <-].
    + apply (inv_assigned st HI).
Qed.

Lemma Inv_updateGig caller id t d b st :
  Inv st -> Inv (fst (updateGig gigValid caller id t d b st)).
Proof.
  intros HI. unfold updateGig.
  destruct (gigs st !! id) as [gig|] eqn:Hg; [|done].
  case_bool_decide as Ho; cbn [negb]; [|done].
  case_bool_decide as Hs; [done|].
  destruct (gigValid _ _ _); [|done]. cbn [fst].
  set (gig' := setGigContent _ _ _ _).
  assert (gigStatus gig' = gigStatus gig /\ hiredBidId gig' = hiredBidId gig)
    as [Hsg Hhg] by done.
  clearbody gig'.
  split; cbn [gigs bids fresh].
  - eapply inv_bid_fresh; eauto.
  - intros k g. rewrite lookup_insert. case_decide.
    + subst. intros _. eapply inv_gig_fresh; eauto.
    + eapply inv_gig_fresh; eauto.
  - intros k b0 Hk. rewrite lookup_insert. case_decide; [done|].
    eapply inv_bid_gig; eauto.
  - eapply inv_bid_schema; eauto.
  - intros gid g k b0. rewrite lookup_insert. case_decide.
    + subst. intros [= <-] Hst. eapply inv_open; eauto. congruence.
    + intros. eapply inv_open; eauto.
  - intros gid g. rewrite lookup_insert. case_decide.
    + intros [= <-]. congruence.
    + apply (inv_assigned st HI).
Qed.

Lemma Inv_deleteGig caller id st :
  Inv st -> Inv (fst (deleteGig caller id st)).
Proof.
  intros HI. unfold deleteGig.
  destruct (gigs st !! id) as [gig|] eqn:Hg; [|done].
  case_bool_decide as Ho; cbn [negb]; [|done]. cbn [fst].
  split; cbn [gigs bids fresh].
  - intros k b [Hk _]%lookup_deleteMany_Some. eapply inv_bid_fresh; eauto.
  - intros k g [_ Hk]%lookup_delete_Some. eapply inv_gig_fresh; eauto.
  - intros k b [Hk Hq%bool_decide_eq_false]%lookup_deleteMany_Some.
    rewrite lookup_delete_ne by done. eapply inv_bid_gig; eauto.
  - intros k b [Hk _]%lookup_deleteMany_Some. eapply inv_bid_schema; eauto.
  - intros gid g k b [_ Hgg]%lookup_delete_Some Hst [Hk _]%lookup_deleteMany_Some.
    eapply inv_open; eauto.
  - intros gid g [Hne Hgg]%lookup_delete_Some Hst.
    destruct (inv_assigned st HI gid g Hgg Hst)
      as (h & bh & Hh & Hbh & Hgh & Hsh & Hrest).
    exists h, bh. split; [done|]. split.
    { apply lookup_deleteMany_Some. split; [done|].
      apply bool_decide_eq_false. congruence. }
    split; [done|]. split; [done|].
    intros k b [Hk _]%lookup_deleteMany_Some. eauto.
Qed.

Lemma Inv_protect user handler st :
  (forall caller, Inv (fst (handler caller st))) -> Inv st ->
  Inv (fst (protect user handler st)).
Proof. intros H HI. destruct user; cbn; auto. Qed.

(** Every request keeps the invariant, whatever it answers. *)
Lemma Inv_step st r : Inv st -> Inv (step gigValid st r).
Proof.
  intros HI. unfold step.
  destruct r; cbn [handle];
    try (apply Inv_protect; [intros caller|done]).
  - by apply Inv_createBid.
  - done.
  - unfold getBidsForGig. destruct (gigs st !! gid); [|done]. by destruct (negb _).
  - by apply Inv_hireBid.
  - by apply Inv_updateBid.
  - by apply Inv_deleteBid.
  - unfold getGigs. destruct (orS search _); [done|].
    by destruct (Text.parse _).
  - done.
  - unfold getGigById. by destruct (gigs st !! id).
  - by apply Inv_createGig.
  - by apply Inv_updateGig.
  - by apply Inv_deleteGig.
Qed.

Lemma Inv_run rs st : Inv st -> Inv (run gigValid rs st).
Proof.
  revert st. induction rs as [|r rs IH]; intros st HI; [done|].
  cbn. apply IH. by apply Inv_step.
Qed.

Lemma reachable_Inv st : reachable gigValid st -> Inv st.
Proof. intros [rs ->]. apply Inv_run, Inv_initial. Qed.


End Preservation.

(** In a state of the running system every stored bid has the form the
    schema gives it. *)
Lemma reachable_bids_stored gigValid st k b :
  reachable gigValid st -> bids st !! k = Some b -> bidStored b.
Proof. intros HI%reachable_Inv. by apply inv_bid_schema. Qed.

(** The scenario is a state of the running system. *)
Lemma scenario_reachable : scenario = run positiveBudget scenarioRequests initial.
Proof. by vm_compute. Qed.

(** ** The hiring coordinator *)



(** After a hire, a further hire on any bid of the same gig is refused with
    a conflict and changes nothing (the requests taken one after the
    other). *)
Lemma hireBid_again_conflict st caller bidId bid gig k bk :
  bids st !! bidId = Some bid ->
  gigs st !! gigId bid = Some gig ->
  ownerId gig = caller ->
  gigStatus gig = open ->
  bids st !! k = Some bk ->
  gigId bk = gigId bid ->
  let st' := fst (hireBid None caller bidId st) in
  hireBid None caller k st'
  = (st', Json conflict
               (Failure "This gig has already been assigned to someone else")).
Proof.
  intros Hb Hg Ho Hs Hk Hgk.
  rewrite (hireBid_run None caller bidId bid gig st Hb Hg Ho Hs). cbn [fst].
  assert (exists bk', hireWrites bidId bid (bids st) !! k = Some bk'
                      /\ gigId bk' = gigId bid) as (bk' & Hk' & Hgk').
  { destruct (decide (k = bidId)) as [->|Hne].
    - rewrite hireWrites_hired. by eexists.
    - rewrite hireWrites_other, Hk by done. cbn. eexists. split; [done|].
      by destruct (_ && _). }
  eapply (hireBid_assigned None caller k bk' (assign bidId gig)); try done.
  cbn. rewrite Hgk'. apply lookup_insert_eq.
Qed.

(** C3. The hire of the scenario's first bid by the gig's owner, with a store
    error at the read that follows the commit: the handler rejects without
    answering 200, and the hire is persisted all the same (the gig is
    assigned, the bid hired, the other bid rejected). *)
Theorem hireBid_error_after_commit_persists :
  exists st',
    hireBid (Some ReadBack) 1%nat 1%nat scenario = (st', Unanswered)
    /\ gigs st' !! 0%nat = Some (assign 1%nat scenarioGig)
    /\ bids st' !! 1%nat = Some (setStatus hired scenarioBid1)
    /\ bids st' !! 2%nat = Some (setStatus rejected scenarioBid2)
    /\ gigs st' <> gigs scenario
    /\ bids st' <> bids scenario.
Proof.
  eexists. split; [by vm_compute|].
  repeat split; by vm_compute.
Qed.

(** ** The bid ledger *)

(** The query of [createBid] for an earlier bid of the caller on the gig. *)
Lemma existsBid_duplicate gid caller (m : gmap Id Bid) :
  existsBid (fun _ b => bool_decide (gigId b = gid)
                        && bool_decide (freelancerId b = caller)) m = true
  <-> exists k b, m !! k = Some b /\ gigId b = gid /\ freelancerId b = caller.
Proof.
  rewrite existsBid_true. split.
  - intros (k & b & Hk & [H1%bool_decide_eq_true H2%bool_decide_eq_true]%andb_true_iff).
    by exists k, b.
  - intros (k & b & Hk & H1 & H2). exists k, b. split; [done|].
    by rewrite (bool_decide_eq_true_2 _ H1), (bool_decide_eq_true_2 _ H2).
Qed.

(** C5, as the code has it.  [createBid] answers 404 when the gig is missing;
    400 when the gig is not open; 400 (the status of a conflict, not 403)
    when the caller owns the gig; 400 when the caller already has a bid on
    the gig; these in this order.  Otherwise, when the message after
    trimming has 10 to 1000 characters and the price is between 1 and
    1000000, it stores a pending bid under a fresh id and answers 201 with
    it; when the message or the price is missing or out of range, it stores
    nothing and forwards a validation error. *)
Theorem createBid_outcomes caller gid msg p st :
  (gigs st !! gid = None ->
   createBid caller gid msg p st = (st, Json not_found (Failure "Gig not found")))
  /\ (forall gig, gigs st !! gid = Some gig -> gigStatus gig <> open ->
      createBid caller gid msg p st
      = (st, Json conflict (Failure "This gig is no longer accepting bids")))
  /\ (forall gig, gigs st !! gid = Some gig -> gigStatus gig = open ->
      ownerId gig = caller ->
      createBid caller gid msg p st
      = (st, Json 400 (Failure "You cannot bid on your own gig")))
  /\ (forall gig, gigs st !! gid = Some gig -> gigStatus gig = open ->
      ownerId gig <> caller ->
      (exists k b, bids st !! k = Some b /\ gigId b = gid /\ freelancerId b = caller) ->
      createBid caller gid msg p st
      = (st, Json conflict
                  (Failure "You have already submitted a bid for this gig")))
  /\ (forall gig m n, gigs st !! gid = Some gig -> gigStatus gig = open ->
      ownerId gig <> caller ->
      ~ (exists k b, bids st !! k = Some b /\ gigId b = gid /\ freelancerId b = caller) ->
      msg = Some m -> p = Some n ->
      validMessage (Text.trim m) = true -> validPrice n = true ->
      let bid := {| gigId := gid; freelancerId := caller;
                    message := Text.trim m; price := n;
                    status := pending; createdAt := fresh st |} in
      createBid caller gid msg p st
      = ({| gigs := gigs st; bids := <[fresh st := bid]> (bids st);
            fresh := S (fresh st); outbox := outbox st |},
         Json 201 (WithBid "Bid submitted successfully" (Some (fresh st, bid)))))
  /\ (forall gig, gigs st !! gid = Some gig -> gigStatus gig = open ->
      ownerId gig <> caller ->
      ~ (exists k b, bids st !! k = Some b /\ gigId b = gid /\ freelancerId b = caller) ->
      match msg, p with
      | Some m, Some n => validMessage (Text.trim m) && validPrice n = false
      | _, _ => True
      end ->
      createBid caller gid msg p st = (st, NextError ValidationError)).
Proof.
  unfold createBid. repeat apply conj.
  - by intros ->.
  - intros gig -> Hs. by rewrite (bool_decide_eq_false_2 _ Hs).
  - intros gig -> Hs Ho.
    by rewrite (bool_decide_eq_true_2 _ Hs), (bool_decide_eq_true_2 _ Ho).
  - intros gig -> Hs Ho Hdup%existsBid_duplicate.
    by rewrite (bool_decide_eq_true_2 _ Hs), (bool_decide_eq_false_2 _ Ho), Hdup.
  - intros gig m n -> Hs Ho Hdup -> -> Hm Hn. cbn zeta.
    rewrite (bool_decide_eq_true_2 _ Hs), (bool_decide_eq_false_2 _ Ho).
    destruct (existsBid _ _) eqn:He; [by apply existsBid_duplicate in He|].
    cbn. unfold validateBid. cbn. rewrite Hm, Hn. cbn.
    by rewrite lookup_insert_eq.
  - intros gig -> Hs Ho Hdup Hbad.
    rewrite (bool_decide_eq_true_2 _ Hs), (bool_decide_eq_false_2 _ Ho).
    destruct (existsBid _ _) eqn:He; [by apply existsBid_duplicate in He|].
    cbn. destruct msg as [m|], p as [n|]; cbn; try done.
    unfold validateBid. cbn. by rewrite Hbad.
Qed.

(** A fourth user bids on the scenario's gig. *)
Lemma createBid_outcomes_witness :
  let bid := {| gigId := 0%nat; freelancerId := 4%nat;
                message := "Two weeks, fixed price"; price := 4200;
                status := pending; createdAt := 3 |} in
  createBid 4%nat 0%nat (Some "  Two weeks, fixed price "%string) (Some 4200%Z)
            scenario
  = ({| gigs := gigs scenario; bids := <[3%nat := bid]> (bids scenario);
        fresh := 4; outbox := [] |},
     Json 201 (WithBid "Bid submitted successfully" (Some (3%nat, bid)))).
Proof.
  pose proof (createBid_outcomes 4%nat 0%nat
                (Some "  Two weeks, fixed price "%string) (Some 4200%Z) scenario)
    as (_ & _ & _ & _ & Hok & _).
  intros bid.
  refine (Hok scenarioGig _ _ eq_refl eq_refl _ _ eq_refl eq_refl eq_refl eq_refl).
  - cbn. lia.
  - intros (k & b & Hk & Hg & Hf).
    assert (freelancerId <$> bids scenario !! k = Some 4%nat) as Hx
      by (by rewrite Hk, <- Hf).
    unfold scenario in Hx. cbn [bids] in Hx.
    destruct (decide (k = 1%nat)) as [->|N1]; [by vm_compute in Hx|].
    destruct (decide (k = 2%nat)) as [->|N2]; [by vm_compute in Hx|].
    by rewrite lookup_insert_ne, lookup_singleton_ne in Hx.
Defined.

(** C5, as stated, fails: the owner of the scenario's gig bids on it and is
    answered 400, the status of a conflict, not the forbidden status 403. *)
Lemma createBid_owner_is_not_forbidden :
  gigs scenario !! 0%nat = Some scenarioGig
  /\ gigStatus scenarioGig = open
  /\ ownerId scenarioGig = 1%nat
  /\ createBid 1%nat 0%nat (Some (message scenarioBid1)) (Some 4000%Z) scenario
     = (scenario, Json conflict (Failure "You cannot bid on your own gig"))
  /\ statusOf (snd (createBid 1%nat 0%nat (Some (message scenarioBid1))
                              (Some 4000%Z) scenario))
     <> Some forbidden.
Proof. repeat split; by vm_compute. Qed.

(** C6. For the bid's freelancer, updating or deleting a bid that is not
    pending (hired or rejected) is answered with the conflict status and
    leaves the whole store, the bid included, as it was; for every other
    caller both operations are answered with the forbidden status, again
    with the store unchanged. *)
Theorem terminal_bid_update_delete st caller bidId bid msg p :
  bids st !! bidId = Some bid ->
  (freelancerId bid = caller -> status bid <> pending ->
     updateBid caller bidId msg p st
     = (st, Json conflict (Failure "Cannot update a bid that is not pending"))
     /\ deleteBid caller bidId st
        = (st, Json conflict (Failure "Cannot delete a bid that is not pending")))
  /\ (freelancerId bid <> caller ->
     updateBid caller bidId msg p st
     = (st, Json forbidden (Failure "Not authorized to update this bid"))
     /\ deleteBid caller bidId st
        = (st, Json forbidden (Failure "Not authorized to delete this bid"))).
Proof.
  intros Hb. unfold updateBid, deleteBid. rewrite Hb. split.
  - intros Ho Hs.
    by rewrite (bool_decide_eq_true_2 _ Ho), (bool_decide_eq_false_2 _ Hs).
  - intros Ho. by rewrite (bool_decide_eq_false_2 _ Ho).
Qed.

(** The first bid of the scenario once hired: its freelancer can neither
    edit nor withdraw it. *)
Lemma terminal_bid_update_delete_witness :
  let st := fst (hireBid None 1%nat 1%nat scenario) in
  updateBid 2%nat 1%nat None (Some 3000%Z) st
  = (st, Json conflict (Failure "Cannot update a bid that is not pending"))
  /\ deleteBid 2%nat 1%nat st
     = (st, Json conflict (Failure "Cannot delete a bid that is not pending")).
Proof.
  intros st.
  refine (proj1 (terminal_bid_update_delete st 2%nat 1%nat
                   (setStatus hired scenarioBid1) None (Some 3000%Z) _) _ _).
  - by vm_compute.
  - reflexivity.
  - cbn. discriminate.
Defined.

(** C10. The checks come in the order existence, ownership, state.  For an
    existing bid, a caller who is not its freelancer gets the forbidden
    status from update and from delete whatever the bid's status; for an
    existing bid with an existing gig, a caller who is not the gig's owner
    gets the forbidden status from hire whatever the statuses; and the
    conflict status is only ever answered to the bid's freelancer (update,
    delete) or to the gig's owner (hire). *)
Theorem ownership_before_state st caller bidId bid :
  bids st !! bidId = Some bid ->
  (forall msg p, freelancerId bid <> caller ->
     updateBid caller bidId msg p st
     = (st, Json forbidden (Failure "Not authorized to update this bid")))
  /\ (freelancerId bid <> caller ->
     deleteBid caller bidId st
     = (st, Json forbidden (Failure "Not authorized to delete this bid")))
  /\ (forall gig fault, gigs st !! gigId bid = Some gig -> ownerId gig <> caller ->
     fault <> Some FindBid -> fault <> Some FindGig ->
     hireBid fault caller bidId st
     = (st, Json forbidden (Failure "Not authorized to hire for this gig")))
  /\ (forall msg p,
     statusOf (snd (updateBid caller bidId msg p st)) = Some conflict ->
     freelancerId bid = caller)
  /\ (statusOf (snd (deleteBid caller bidId st)) = Some conflict ->
     freelancerId bid = caller)
  /\ (forall fault,
     statusOf (snd (hireBid fault caller bidId st)) = Some conflict ->
     exists gig, gigs st !! gigId bid = Some gig /\ ownerId gig = caller).
Proof.
  intros Hb. repeat apply conj.
  - intros msg p Ho. unfold updateBid. by rewrite Hb, (bool_decide_eq_false_2 _ Ho).
  - intros Ho. unfold deleteBid. by rewrite Hb, (bool_decide_eq_false_2 _ Ho).
  - intros gig fault Hg Ho Hf Hf'. by apply (hireBid_not_owner fault caller bidId bid gig).
  - intros msg p. unfold updateBid. rewrite Hb.
    case_bool_decide as Ho; cbn [negb]; [|done]. done.
  - unfold deleteBid. rewrite Hb.
    case_bool_decide as Ho; cbn [negb]; [|done]. done.
  - intros fault. unfold hireBid, startTransaction. cbn [txBids txGigs].
    destruct (throws fault FindBid); [done|]. rewrite Hb.
    destruct (throws fault FindGig); [done|].
    destruct (gigs st !! gigId bid) as [gig|]; [|done].
    case_bool_decide as Ho; cbn [negb]; [|done]. intros _. by exists gig.
Qed.

(** The second freelancer of the scenario tries the first one's bid. *)
Lemma ownership_before_state_witness :
  updateBid 3%nat 1%nat None (Some 10%Z) scenario
  = (scenario, Json forbidden (Failure "Not authorized to update this bid"))
  /\ hireBid None 3%nat 1%nat scenario
     = (scenario, Json forbidden (Failure "Not authorized to hire for this gig")).
Proof.
  destruct (ownership_before_state scenario 3%nat 1%nat scenarioBid1 eq_refl)
    as (Hu & _ & Hh & _).
  split.
  - apply Hu. cbn. lia.
  - apply (Hh scenarioGig None); [reflexivity | cbn; lia | discriminate ..].
Defined.

(** C9 (bids) and C9 (gigs) share the reading of [a || b]. *)
Lemma orS_falsy a b : falsyS a = true -> orS a b = b.
Proof. by destruct a as [[|]|]. Qed.

Lemma orS_truthy a b : falsyS a = false -> Some (orS a b) = a.
Proof. by destruct a as [[|]|]. Qed.

Lemma orZ_falsy a b : falsyZ a = true -> orZ a b = b.
Proof. by destruct a as [[| |]|]. Qed.

Lemma orZ_truthy a b : falsyZ a = false -> Some (orZ a b) = a.
Proof. by destruct a as [[| |]|]. Qed.

Section GigRegistry.

Variable gigValid : string -> string -> Z -> bool.

(** C9. An update of an open gig by its owner, and an update of a pending
    bid by its freelancer, whose resulting document the schema accepts, is
    answered 200; a field supplied with a falsy value (omitted, the empty
    string, zero) keeps its stored value, and a field supplied with a truthy
    value takes it (the message after trimming); nothing else in the
    document and no other document changes.  The stored message is one the
    schema's setter produced. *)
Theorem update_keeps_falsy_fields st caller :
  (forall id gig t d b,
     gigs st !! id = Some gig -> ownerId gig = caller -> gigStatus gig = open ->
     gigValid (orS t (title gig)) (orS d (description gig)) (orZ b (budget gig))
     = true ->
     exists gig',
       updateGig gigValid caller id t d b st
       = ({| gigs := <[id := gig']> (gigs st); bids := bids st;
             fresh := fresh st; outbox := outbox st |},
          Json 200 (WithGig (Some "Gig updated successfully"%string)
                            (Some (id, gig'))))
       /\ (falsyS t = true -> title gig' = title gig)
       /\ (falsyS t = false -> Some (title gig') = t)
       /\ (falsyS d = true -> description gig' = description gig)
       /\ (falsyS d = false -> Some (description gig') = d)
       /\ (falsyZ b = true -> budget gig' = budget gig)
       /\ (falsyZ b = false -> Some (budget gig') = b)
       /\ ownerId gig' = ownerId gig /\ gigStatus gig' = gigStatus gig
       /\ hiredBidId gig' = hiredBidId gig /\ gigCreatedAt gig' = gigCreatedAt gig)
  /\ (forall bidId bid msg p,
     bids st !! bidId = Some bid -> freelancerId bid = caller ->
     status bid = pending ->
     Text.trim (message bid) = message bid ->
     validMessage (Text.trim (orS msg (message bid))) = true ->
     validPrice (orZ p (price bid)) = true ->
     exists bid',
       updateBid caller bidId msg p st
       = ({| gigs := gigs st; bids := <[bidId := bid']> (bids st);
             fresh := fresh st; outbox := outbox st |},
          Json 200 (WithBid "Bid updated successfully" (Some (bidId, bid'))))
       /\ (falsyS msg = true -> message bid' = message bid)
       /\ (falsyS msg = false -> Some (message bid') = Text.trim <$> msg)
       /\ (falsyZ p = true -> price bid' = price bid)
       /\ (falsyZ p = false -> Some (price bid') = p)
       /\ gigId bid' = gigId bid /\ freelancerId bid' = freelancerId bid
       /\ status bid' = status bid /\ createdAt bid' = createdAt bid).
Proof.
  split.
  - intros id gig t d b Hg Ho Hs Hv. unfold updateGig. rewrite Hg.
    rewrite (bool_decide_eq_true_2 _ Ho),
            (bool_decide_eq_false_2 (gigStatus gig = assigned)) by congruence.
    cbn [negb setGigContent title description budget]. rewrite Hv.
    eexists. split. { cbn. by rewrite lookup_insert_eq. }
    cbn. repeat apply conj; try done;
      auto using orS_falsy, orS_truthy, orZ_falsy, orZ_truthy.
  - intros bidId bid msg p Hb Ho Hs Ht Hm Hp. unfold updateBid. rewrite Hb.
    rewrite (bool_decide_eq_true_2 _ Ho), (bool_decide_eq_true_2 _ Hs).
    cbn [negb]. unfold validateBid. cbn [setMessage setPrice message price].
    rewrite Hm, Hp. cbn [andb].
    exists (setPrice (orZ p (price bid)) (setMessage (orS msg (message bid)) bid)).
    split. { cbn [bids]. rewrite lookup_insert_eq. reflexivity. }
    cbn. repeat apply conj; try done;
      auto using orZ_falsy, orZ_truthy.
    + intros Hf. by rewrite (orS_falsy _ _ Hf).
    + by destruct msg as [[|]|].
Qed.

End GigRegistry.

(** The owner of the scenario's gig sends an empty title and a zero budget
    with a new description; the first freelancer sends an empty message
    with a new price. *)
Lemma update_keeps_falsy_fields_witness :
  (exists gig',
     snd (updateGig positiveBudget 1%nat 0%nat (Some ""%string)
                    (Some "Landing page only"%string) (Some 0%Z) scenario)
     = Json 200 (WithGig (Some "Gig updated successfully"%string)
                         (Some (0%nat, gig')))
     /\ title gig' = title scenarioGig
     /\ description gig' = "Landing page only"%string
     /\ budget gig' = 5000%Z)
  /\ (exists bid',
     snd (updateBid 2%nat 1%nat (Some ""%string) (Some 3900%Z) scenario)
     = Json 200 (WithBid "Bid updated successfully" (Some (1%nat, bid')))
     /\ message bid' = message scenarioBid1
     /\ price bid' = 3900%Z).
Proof.
  destruct (update_keeps_falsy_fields positiveBudget scenario 1%nat) as [Hgig _].
  destruct (update_keeps_falsy_fields positiveBudget scenario 2%nat) as [_ Hbid].
  split.
  - destruct (Hgig 0%nat scenarioGig (Some ""%string)
                (Some "Landing page only"%string) (Some 0%Z))
      as (gig' & Hr & Ht & _ & _ & Hd & Hb & _); [reflexivity ..|].
    exists gig'. rewrite Hr. split; [reflexivity|].
    split; [by apply Ht|]. split; [|by apply Hb].
    specialize (Hd eq_refl). by injection Hd.
  - destruct (Hbid 1%nat scenarioBid1 (Some ""%string) (Some 3900%Z))
      as (bid' & Hr & Hm & _ & _ & Hp & _); [reflexivity ..|].
    exists bid'. rewrite Hr. split; [reflexivity|].
    split; [by apply Hm|]. specialize (Hp eq_refl). by injection Hp.
Defined.

(** ** The gig registry *)

(** C8. When its owner deletes a gig, the answer is 200, the gig is gone,
    no bid that refers to it remains (the bids found for it are none, their
    count zero), every bid of every other gig is kept as it was, and so is
    every other gig. *)
Theorem deleteGig_cascades st caller id gig :
  gigs st !! id = Some gig ->
  ownerId gig = caller ->
  exists st',
    deleteGig caller id st
    = (st', Json 200 (Success "Gig and associated bids deleted successfully"))
    /\ gigs st' !! id = None
    /\ (forall k b, bids st' !! k = Some b -> gigId b <> id)
    /\ findBids (fun _ b => bool_decide (gigId b = id)) (bids st') = []
    /\ (forall k b, bids st !! k = Some b -> gigId b <> id ->
          bids st' !! k = Some b)
    /\ (forall k b, bids st' !! k = Some b -> bids st !! k = Some b)
    /\ (forall k, k <> id -> gigs st' !! k = gigs st !! k).
Proof.
  intros Hg Ho. eexists. split.
  { unfold deleteGig. by rewrite Hg, (bool_decide_eq_true_2 _ Ho). }
  cbn [gigs bids].
  assert (Hgone : forall k b,
            deleteMany (fun _ b => bool_decide (gigId b = id)) (bids st) !! k
            = Some b -> gigId b <> id).
  { by intros k b [_ Hq%bool_decide_eq_false]%lookup_deleteMany_Some. }
  repeat apply conj.
  - apply lookup_delete_eq.
  - exact Hgone.
  - apply elem_of_nil_inv. intros [k b] [Hk Hq%bool_decide_eq_true]%elem_of_findBids.
    by apply (Hgone k b).
  - intros k b Hk Hne. apply lookup_deleteMany_Some. split; [done|].
    by apply bool_decide_eq_false.
  - by intros k b [Hk _]%lookup_deleteMany_Some.
  - intros k Hk. by apply lookup_delete_ne.
Qed.

(** The owner deletes the scenario's gig: both bids go with it. *)
Lemma deleteGig_cascades_witness :
  exists st',
    deleteGig 1%nat 0%nat scenario
    = (st', Json 200 (Success "Gig and associated bids deleted successfully"))
    /\ gigs st' !! 0%nat = None
    /\ findBids (fun _ b => bool_decide (gigId b = 0%nat)) (bids st') = [].
Proof.
  destruct (deleteGig_cascades scenario 1%nat 0%nat scenarioGig)
    as (st' & Hr & Hg & _ & Hn & _); [reflexivity ..|].
  by exists st'.
Defined.

(** C7, as the code has it.  For a search term without regular-expression
    metacharacters (or none), [getGigs] answers 200 with exactly the gigs
    whose status is the requested one, open when none is requested, and
    whose title or description contains the term as a substring up to
    case; the count is their number. *)
Theorem getGigs_plain_search search status st :
  Text.plain (orS search EmptyString) = true ->
  exists found,
    getGigs search status st = Some (st, Json 200 (GigList (length found) found))
    /\ forall id g,
         (id, g) ∈ found <->
         gigs st !! id = Some g
         /\ gigStatusName (gigStatus g) = orS status "open"
         /\ (Text.contains_ci (title g) (orS search EmptyString) = true
             \/ Text.contains_ci (description g) (orS search EmptyString) = true).
Proof.
  intros Hplain. unfold getGigs.
  destruct (orS search EmptyString) as [|c pat] eqn:Hterm.
  - eexists. split; [done|]. intros id g. rewrite elem_of_findGigs.
    rewrite bool_decide_eq_true. split; [|tauto].
    intros [? ?]. repeat split; try done. left. by destruct (title g).
  - rewrite (TextFacts.plain_parse _ Hplain).
    eexists. split; [done|]. intros id g. rewrite elem_of_findGigs.
    unfold matchesSearch. rewrite !TextFacts.search_lits.
    rewrite andb_true_iff, orb_true_iff, bool_decide_eq_true. tauto.
Qed.

(** The README's search for React, in lower case, on the scenario. *)
Lemma getGigs_plain_search_witness :
  exists found,
    getGigs (Some "react"%string) None scenario
    = Some (scenario, Json 200 (GigList (length found) found))
    /\ (0%nat, scenarioGig) ∈ found.
Proof.
  destruct (getGigs_plain_search (Some "react"%string) None scenario)
    as (found & Hr & Hin); [reflexivity|].
  exists found. split; [exact Hr|].
  apply Hin. split; [reflexivity|]. split; [reflexivity|]. left. reflexivity.
Defined.

(** C7, as stated, fails: the search term is a pattern, and the term [.]
    finds the scenario's gig, whose title and description contain no
    full stop. *)
Lemma getGigs_dot_is_not_substring :
  getGigs (Some "."%string) None scenario
  = Some (scenario, Json 200 (GigList 1 [(0%nat, scenarioGig)]))
  /\ Text.contains_ci (title scenarioGig) "." = false
  /\ Text.contains_ci (description scenarioGig) "." = false.
Proof. repeat split; by vm_compute. Qed.

(** * Further properties of the code *)

(** ** The auth gate *)

Lemma split_word sep a b :
  forallb (fun c => negb (bool_decide (c = sep))) (list_ascii_of_string a) = true ->
  Auth.split sep (a +:+ String sep b) = a :: Auth.split sep b.
Proof.
  induction a as [|c a IH]; simpl.
  - intros _. by rewrite (bool_decide_eq_true_2 (sep = sep)).
  - intros [Hc Ha]%andb_true_iff. apply negb_true_iff in Hc. rewrite Hc.
    by rewrite (IH Ha).
Qed.

Lemma split_last sep a :
  forallb (fun c => negb (bool_decide (c = sep))) (list_ascii_of_string a) = true ->
  Auth.split sep a = [a].
Proof.
  induction a as [|c a IH]; simpl.
  { reflexivity. }
  intros [Hc Ha]%andb_true_iff. apply negb_true_iff in Hc. rewrite Hc.
  by rewrite (IH Ha).
Qed.

Lemma prefix_app p a b :
  String.prefix p a = true -> String.prefix p (a +:+ b) = true.
Proof.
  revert p. induction a as [|d a IH]; intros [|c p]; simpl; try done.
  - intros _. by destruct b.
  - destruct (Ascii.ascii_dec c d); [|done]. apply IH.
Qed.

Lemma token_cookie_first t header :
  t <> EmptyString ->
  Auth.token {| Auth.cookieToken := Some t; Auth.authorization := header |}
  = Some t.
Proof.
  intros Ht. unfold Auth.token. cbn [Auth.cookieToken Auth.authorization].
  destruct header as [h|]; [|done]. by destruct t.
Qed.

Section AuthGate.

Variable jwtVerify : string -> option (option Id).

(** X1. A token in the cookie decides alone: whatever the Authorization
    header holds, and whether or not the cookie's token verifies, the
    middleware does what it does without the header. *)
Theorem protect_cookie_takes_precedence users t header next st :
  t <> EmptyString ->
  Auth.protect jwtVerify users
    {| Auth.cookieToken := Some t; Auth.authorization := header |} next st
  = Auth.protect jwtVerify users
      {| Auth.cookieToken := Some t; Auth.authorization := None |} next st.
Proof.
  intros Ht. unfold Auth.protect. by rewrite !token_cookie_first.
Qed.

(** X2. The middleware fails closed.  Either it answers 401 and leaves the
    state as it is, without running the handler; or it runs the handler for
    a user who exists, whose id [jwt.verify] returned for a non-empty token
    that the request carried in the cookie or, the cookie giving none, as
    the second word of an Authorization header that starts with Bearer. *)
Theorem protect_fails_closed users req next st :
  (exists msg,
     Auth.protect jwtVerify users req next st
     = (st, Json unauthenticated (Failure msg)))
  \/ (exists u t,
     Auth.protect jwtVerify users req next st = next u st
     /\ is_Some (users !! u)
     /\ t <> EmptyString /\ jwtVerify t = Some (Some u)
     /\ (Auth.cookieToken req = Some t
         \/ falsyS (Auth.cookieToken req) = true
            /\ exists h, Auth.authorization req = Some h
                 /\ String.prefix "Bearer" h = true
                 /\ Auth.split Auth.space h !! 1%nat = Some t)).
Proof.
  unfold Auth.protect.
  destruct (Auth.token req) as [[|c t]|] eqn:Htok;
    [left; eexists; reflexivity| |left; eexists; reflexivity].
  destruct (jwtVerify (String c t)) as [[u|]|] eqn:Hjv;
    [|left; eexists; reflexivity ..].
  cbn. destruct (users !! u) as [usr|] eqn:Hu; cbn;
    [|left; eexists; reflexivity].
  right. exists u, (String c t).
  split; [done|]. split; [done|]. split; [done|]. split; [done|].
  unfold Auth.token in Htok. destruct (Auth.authorization req) as [h|]; [|by left].
  destruct (falsyS (Auth.cookieToken req)) eqn:Hf; cbn [andb] in Htok; [|by left].
  destruct (String.prefix "Bearer" h) eqn:Hp; [|by left]. right. eauto 10.
Qed.

(** X3. With no token in the cookie, a header made of a scheme that starts
    with Bearer, one space and a token (more words may follow) gives that
    token to [jwt.verify]; the test on the scheme is a prefix test, and an
    empty token (two spaces in a row) is answered 401 as no token. *)
Theorem protect_reads_second_word users cookie scheme tok rest next st :
  falsyS cookie = true ->
  String.prefix "Bearer" scheme = true ->
  noSpace scheme = true -> noSpace tok = true ->
  let req := {| Auth.cookieToken := cookie;
                Auth.authorization := Some (bearerHeader scheme tok rest) |} in
  Auth.token req = Some tok
  /\ (tok = EmptyString ->
      Auth.protect jwtVerify users req next st
      = (st, Json unauthenticated (Failure "Not authorized, no token provided")))
  /\ (forall u usr, tok <> EmptyString -> jwtVerify tok = Some (Some u) ->
      users !! u = Some usr ->
      Auth.protect jwtVerify users req next st = next u st).
Proof.
  intros Hc Hp Hs Ht req.
  assert (Auth.token req = Some tok) as Htok.
  { unfold Auth.token, req. cbn [Auth.cookieToken Auth.authorization].
    assert (String.prefix "Bearer" (bearerHeader scheme tok rest) = true) as ->.
    { destruct rest; apply prefix_app, Hp. }
    rewrite Hc. cbn [andb].
    destruct rest as [r|]; cbn [bearerHeader];
      rewrite (split_word _ _ _ Hs); cbn [lookup list_lookup].
    - by rewrite (split_word _ _ _ Ht).
    - by rewrite (split_last _ _ Ht). }
  split; [done|]. unfold Auth.protect. rewrite Htok. split.
  - by intros ->.
  - intros u usr Hne Hjv Hu. destruct tok; [done|]. rewrite Hjv. cbn.
    by rewrite Hu.
Qed.

(** A header that does not start with Bearer is not read at all: with no
    token in the cookie the answer is 401, whatever the header holds. *)
Theorem protect_ignores_other_schemes users cookie header next st :
  falsyS cookie = true ->
  String.prefix "Bearer" header = false ->
  Auth.protect jwtVerify users
    {| Auth.cookieToken := cookie; Auth.authorization := Some header |} next st
  = (st, Json unauthenticated (Failure "Not authorized, no token provided")).
Proof.
  intros Hc Hp. unfold Auth.protect, Auth.token.
  cbn [Auth.cookieToken Auth.authorization]. rewrite Hp, andb_false_r.
  by destruct cookie as [[|]|].
Qed.


End AuthGate.

(** A valid cookie with a header for somebody else: the header is not read. *)
Lemma protect_cookie_takes_precedence_witness :
  Auth.protect exampleVerify exampleUsers
    {| Auth.cookieToken := Some "signed-for-1"%string;
       Auth.authorization := Some "Bearer other"%string |}
    (fun u => getMyBids u) scenario
  = getMyBids 1%nat scenario.
Proof.
  rewrite (protect_cookie_takes_precedence exampleVerify exampleUsers
             "signed-for-1" (Some "Bearer other"%string)); [|discriminate].
  reflexivity.
Defined.

(** The usual header, and a header with two spaces. *)
Lemma protect_reads_second_word_witness :
  Auth.protect exampleVerify exampleUsers
    {| Auth.cookieToken := None;
       Auth.authorization := Some "Bearer signed-for-1"%string |}
    (fun u => getMyBids u) scenario
  = getMyBids 1%nat scenario
  /\ Auth.protect exampleVerify exampleUsers
       {| Auth.cookieToken := None;
          Auth.authorization := Some "Bearer  signed-for-1"%string |}
       (fun u => getMyBids u) scenario
     = (scenario, Json unauthenticated (Failure "Not authorized, no token provided")).
Proof.
  split.
  - apply (protect_reads_second_word exampleVerify exampleUsers None
             "Bearer" "signed-for-1" None (fun u => getMyBids u) scenario
             eq_refl eq_refl eq_refl eq_refl)
      with (usr := {| Auth.name := "Owner"; Auth.email := "owner@example.com";
                      Auth.password := "$2a$10$hash" |});
      [discriminate | reflexivity | reflexivity].
  - apply (protect_reads_second_word exampleVerify exampleUsers None
             "Bearer" "" (Some "signed-for-1"%string) (fun u => getMyBids u)
             scenario eq_refl eq_refl eq_refl eq_refl).
    reflexivity.
Defined.


(** ** Answers that refuse, and lists *)







Lemma findBids_ordered q (m : gmap Id Bid) :
  StronglySorted bidNewer (findBids q m) /\ NoDup (findBids q m).
Proof.
  unfold findBids. split; [apply StronglySorted_merge_sort; apply _|].
  apply (proj2 (NoDup_Permutation_proper _ _ (merge_sort_Permutation bidNewer _))).
  apply NoDup_filter, NoDup_map_to_list.
Qed.

Lemma findGigs_ordered q (m : gmap Id Gig) :
  StronglySorted gigNewer (findGigs q m) /\ NoDup (findGigs q m).
Proof.
  unfold findGigs. split; [apply StronglySorted_merge_sort; apply _|].
  apply (proj2 (NoDup_Permutation_proper _ _ (merge_sort_Permutation gigNewer _))).
  apply NoDup_filter, NoDup_map_to_list.
Qed.

Section Requests.

Variable gigValid : string -> string -> Z -> bool.





(** X6. Every list a request answers with, of bids or of gigs, has its
    documents newest first by [createdAt] and each once, and the count of
    the answer is the length of the list. *)
Theorem lists_newest_first r st st' code :
  (forall n l, handle gigValid r st = Some (st', Json code (BidList n l)) ->
     n = length l /\ StronglySorted bidNewer l /\ NoDup l)
  /\ (forall n l, handle gigValid r st = Some (st', Json code (GigList n l)) ->
     n = length l /\ StronglySorted gigNewer l /\ NoDup l).
Proof.
  split; intros n l H.
  - destruct r; cbn [handle] in H;
      try (destruct user; cbn [protect] in H);
      unfold createBid, getMyBids, getBidsForGig, hireBid, updateBid, deleteBid,
        getGigs, getMyGigs, getGigById, createGig, updateGig, deleteGig in H;
      repeat case_match; simplify_eq;
      (split; [done|apply findBids_ordered]).
  - destruct r; cbn [handle] in H;
      try (destruct user; cbn [protect] in H);
      unfold createBid, getMyBids, getBidsForGig, hireBid, updateBid, deleteBid,
        getGigs, getMyGigs, getGigById, createGig, updateGig, deleteGig in H;
      repeat case_match; simplify_eq;
      (split; [done|apply findGigs_ordered]).
Qed.

End Requests.


(** The owner lists the bids of the scenario's gig. *)
Lemma lists_newest_first_witness :
  exists n l,
    handle positiveBudget (GetBidsForGig (Some 1%nat) 0%nat) scenario
    = Some (scenario, Json 200 (BidList n l))
    /\ n = length l /\ StronglySorted bidNewer l /\ NoDup l.
Proof.
  eexists _, _. split; [reflexivity|].
  apply (proj1 (lists_newest_first positiveBudget
                  (GetBidsForGig (Some 1%nat) 0%nat) scenario scenario 200)).
  reflexivity.
Defined.

(** ** The ledger over every run *)

(** What [trim] leaves at the end of a string is not whitespace. *)
Lemma trim_right_lastChar s :
  match lastChar (Text.trim_right s) with
  | Some c => Text.is_space c = false
  | None => True
  end.
Proof.
  induction s as [|c r IH]; [done|].
  cbn [Text.trim_right]. destruct (Text.trim_right r) as [|c' r'] eqn:Hr.
  - destruct (Text.is_space c) eqn:Hc; [done|]. by cbn.
  - exact IH.
Qed.

Lemma Ledger_initial : Ledger initial.
Proof. split; cbn; intros; simplify_map_eq. Qed.

Lemma Ledger_emit e st : Ledger st -> Ledger (emit e st).
Proof. intros []. by split. Qed.

(** A bid after the writes of a hire is the bid it was, up to its status. *)
Lemma hireWrites_status bidId bid (m : gmap Id Bid) k b :
  m !! bidId = Some bid ->
  hireWrites bidId bid m !! k = Some b ->
  exists b0, m !! k = Some b0 /\ b = setStatus (status b) b0.
Proof.
  intros Hb. destruct (decide (k = bidId)) as [->|Hk].
  - rewrite hireWrites_hired. intros [= <-]. by exists bid.
  - rewrite hireWrites_other by done.
    destruct (m !! k) as [b0|]; [|done]. cbn. intros [= <-]. exists b0.
    split; [done|]. destruct (_ && _); [done|]. by destruct b0.
Qed.

Lemma Ledger_committed bidId bid gig st :
  Inv st -> Ledger st ->
  bids st !! bidId = Some bid -> gigs st !! gigId bid = Some gig ->
  gigStatus gig = open -> Ledger (committed bidId bid gig st).
Proof.
  intros HI HL Hb Hg Hs.
  pose proof (fun k b => hireWrites_status bidId bid (bids st) k b Hb) as Hlk.
  split; cbn [committed gigs bids fresh].
  - intros k1 k2 b1 b2 H1 H2.
    destruct (Hlk _ _ H1) as (c1 & Hc1 & ->). destruct (Hlk _ _ H2) as (c2 & Hc2 & ->).
    cbn. eapply led_unique; eauto.
  - intros k b g Hk. destruct (Hlk _ _ Hk) as (c & Hc & ->). cbn.
    rewrite lookup_insert. case_decide as Hd.
    + intros [= <-]. cbn. rewrite Hd in Hg. eapply led_not_owner; eauto.
    + eapply led_not_owner; eauto.
  - intros gid g. rewrite lookup_insert. case_decide.
    + by intros [= <-].
    + eapply led_open_unhired; eauto.
  - intros k b Hk. destruct (Hlk _ _ Hk) as (c & Hc & ->). cbn.
    eapply led_bid_time; eauto.
  - intros k g. rewrite lookup_insert. case_decide.
    + intros [= <-]. cbn. eapply led_gig_time; eauto.
    + eapply led_gig_time; eauto.
Qed.

Lemma Ledger_hireBid fault caller bidId st :
  Inv st -> Ledger st -> Ledger (fst (hireBid fault caller bidId st)).
Proof.
  intros HI HL. destruct (hireBid_cases fault caller bidId st)
    as [->|(bid & gig & Hb & Hg & _ & Hs & [[_ ->]|[_ ->]])]; [done| |].
  - by apply Ledger_committed.
  - by apply Ledger_emit, Ledger_committed.
Qed.

Lemma Ledger_createBid caller gid msg p st :
  Inv st -> Ledger st -> Ledger (fst (createBid caller gid msg p st)).
Proof.
  intros HI HL. unfold createBid.
  destruct (gigs st !! gid) as [gig|] eqn:Hg; [|done].
  case_bool_decide as Hs; cbn [negb]; [|done].
  case_bool_decide as Ho; [done|].
  destruct (existsBid _ _) eqn:He; [done|].
  destruct (newBid gid caller msg p (fresh st)) as [bid|] eqn:Hn; [|done].
  destruct (validateBid bid) eqn:Hv; [|done]. cbn [fst].
  assert (gigId bid = gid /\ freelancerId bid = caller /\ createdAt bid = fresh st)
    as (Hgb & Hfb & Htb).
  { unfold newBid in Hn. destruct msg, p; try done. by injection Hn as <-. }
  assert (Hno : forall k b, bids st !! k = Some b -> gigId b = gid ->
                            freelancerId b = caller -> False).
  { intros k b Hk H1 H2. assert (existsBid
        (fun _ b => bool_decide (gigId b = gid) && bool_decide (freelancerId b = caller))
        (bids st) = true) as Hx by (apply existsBid_duplicate; eauto).
    congruence. }
  assert (Hold : forall k b, bids st !! k = Some b -> k <> fresh st).
  { intros k b Hk. pose proof (inv_bid_fresh st HI k b Hk). lia. }
  split; cbn [gigs bids fresh].
  - intros k1 k2 b1 b2. rewrite !lookup_insert.
    repeat case_decide; subst; try done.
    + intros [= <-] H2 E1 E2. exfalso. eapply Hno; eauto; congruence.
    + intros H1 [= <-] E1 E2. exfalso. eapply Hno; eauto; congruence.
    + eapply led_unique; eauto.
  - intros k b g. rewrite lookup_insert. case_decide.
    + intros [= <-]. rewrite Hgb, Hg. intros [= <-]. congruence.
    + eapply led_not_owner; eauto.
  - eapply led_open_unhired; eauto.
  - intros k b. rewrite lookup_insert. case_decide.
    + intros [= <-]. lia.
    + intros Hk. pose proof (led_bid_time st HL k b Hk). lia.
  - intros k g Hk. pose proof (led_gig_time st HL k g Hk). lia.
Qed.

Lemma Ledger_updateBid caller bidId msg p st :
  Ledger st -> Ledger (fst (updateBid caller bidId msg p st)).
Proof.
  intros HL. unfold updateBid.
  destruct (bids st !! bidId) as [bid|] eqn:Hb; [|done].
  case_bool_decide as Ho; cbn [negb]; [|done].
  case_bool_decide as Hs; cbn [negb]; [|done].
  destruct (validateBid _) eqn:Hv; [|done]. cbn [fst].
  set (bid' := setPrice _ _) in *.
  assert (gigId bid' = gigId bid /\ freelancerId bid' = freelancerId bid /\
          createdAt bid' = createdAt bid) as (Hgb & Hfb & Htb) by done.
  clearbody bid'.
  split; cbn [gigs bids fresh].
  - intros k1 k2 b1 b2. rewrite !lookup_insert.
    repeat case_decide; subst; try done.
    + intros [= <-] H2. rewrite Hgb, Hfb. eapply led_unique; eauto.
    + intros H1 [= <-]. rewrite Hgb, Hfb. eapply led_unique; eauto.
    + eapply led_unique; eauto.
  - intros k b g. rewrite lookup_insert. case_decide.
    + intros [= <-]. rewrite Hgb, Hfb. subst. eapply led_not_owner; eauto.
    + eapply led_not_owner; eauto.
  - eapply led_open_unhired; eauto.
  - intros k b. rewrite lookup_insert. case_decide.
    + intros [= <-]. rewrite Htb. subst. eapply led_bid_time; eauto.
    + eapply led_bid_time; eauto.
  - eapply led_gig_time; eauto.
Qed.

Lemma Ledger_deleteBid caller bidId st :
  Ledger st -> Ledger (fst (deleteBid caller bidId st)).
Proof.
  intros HL. unfold deleteBid.
  destruct (bids st !! bidId) as [bid|] eqn:Hb; [|done].
  case_bool_decide as Ho; cbn [negb]; [|done].
  case_bool_decide as Hs; cbn [negb]; [|done]. cbn [fst].
  split; cbn [gigs bids fresh].
  - intros k1 k2 b1 b2 [? ?]%lookup_delete_Some [? ?]%lookup_delete_Some.
    eapply led_unique; eauto.
  - intros k b g [? ?]%lookup_delete_Some. eapply led_not_owner; eauto.
  - eapply led_open_unhired; eauto.
  - intros k b [? ?]%lookup_delete_Some. eapply led_bid_time; eauto.
  - eapply led_gig_time; eauto.
Qed.

Lemma hire_bid_effect fault u bidId st k b :
  Inv st -> bids st !! k = Some b ->
  bidEffect st (PatchHire (Some u) bidId fault) k b
            (bids (fst (hireBid fault u bidId st)) !! k).
Proof.
  intros HI Hk. unfold bidEffect.
  destruct (hireBid_cases fault u bidId st)
    as [->|(bid & gig & Hb & Hg & Ho & Hs & Hc)]; [by left|].
  assert (bids (fst (hireBid fault u bidId st)) !! k
          = hireWrites bidId bid (bids st) !! k) as ->.
  { by destruct Hc as [[_ ->]|[_ ->]]. }
  subst u. destruct (decide (k = bidId)) as [->|Hne].
  - rewrite hireWrites_hired. assert (b = bid) as -> by congruence.
    right; right; right; right. exists gig, bidId, fault.
    split; [done|]. split; [done|]. split; [eapply inv_open; eauto|].
    by rewrite decide_True.
  - rewrite hireWrites_other, Hk by done. cbn.
    case_bool_decide as Hgb; cbn [andb]; [|by left].
    case_bool_decide as Hsb; [|by left].
    right; right; right; right. exists gig, bidId, fault.
    rewrite Hgb. by rewrite decide_False.
Qed.

Lemma createBid_bid_effect u gid msg p st k b :
  Inv st -> bids st !! k = Some b ->
  bids (fst (createBid u gid msg p st)) !! k = Some b.
Proof.
  intros HI Hk. unfold createBid. repeat case_match; cbn [fst bids]; try done.
  rewrite lookup_insert_ne; [done|].
  pose proof (inv_bid_fresh st HI k b Hk). lia.
Qed.

Lemma updateBid_bid_effect u bidId msg p st k b :
  bids st !! k = Some b ->
  bidEffect st (PutBid (Some u) bidId msg p) k b
            (bids (fst (updateBid u bidId msg p st)) !! k).
Proof.
  intros Hk. unfold bidEffect, updateBid.
  destruct (decide (k = bidId)) as [->|Hne].
  - rewrite Hk. case_bool_decide as Ho; cbn [negb]; [|by left].
    case_bool_decide as Hs; cbn [negb]; [|by left].
    case_match; cbn [fst bids]; [|by left].
    rewrite lookup_insert_eq. right; right; right; left.
    exists msg, p. by subst u.
  - repeat case_match; cbn [fst bids]; try by left.
    left. by rewrite lookup_insert_ne.
Qed.

Lemma deleteBid_bid_effect u bidId st k b :
  bids st !! k = Some b ->
  bidEffect st (DeleteBid (Some u) bidId) k b
            (bids (fst (deleteBid u bidId st)) !! k).
Proof.
  intros Hk. unfold bidEffect, deleteBid.
  destruct (decide (k = bidId)) as [->|Hne].
  - rewrite Hk. case_bool_decide as Ho; cbn [negb]; [|by left].
    case_bool_decide as Hs; cbn [negb]; [|by left].
    cbn [fst bids]. rewrite lookup_delete_eq. right; left. by subst u.
  - repeat case_match; cbn [fst bids]; try by left.
    left. by rewrite lookup_delete_ne.
Qed.

Lemma deleteGig_bid_effect u id st k b :
  bids st !! k = Some b ->
  bidEffect st (DeleteGig (Some u) id) k b
            (bids (fst (deleteGig u id st)) !! k).
Proof.
  intros Hk. unfold bidEffect, deleteGig.
  destruct (gigs st !! id) as [g|] eqn:Hg; [|by left].
  case_bool_decide as Ho; cbn [negb fst bids]; [|by left].
  destruct (decide (gigId b = id)) as [<-|Hne].
  - right; right; left. split; [|exists g; by subst u].
    apply map_lookup_filter_None. right. intros b' Hb'. cbn.
    assert (b' = b) as -> by congruence. by rewrite bool_decide_eq_true_2.
  - left. apply lookup_deleteMany_Some. split; [done|].
    by apply bool_decide_eq_false.
Qed.

Lemma hire_gig_effect fault u bidId st k g :
  gigs st !! k = Some g ->
  gigEffect st (PatchHire (Some u) bidId fault) k g
            (gigs (fst (hireBid fault u bidId st)) !! k).
Proof.
  intros Hk. unfold gigEffect.
  destruct (hireBid_cases fault u bidId st)
    as [->|(bid & gig & Hb & Hg & Ho & Hs & Hc)]; [by left|].
  assert (gigs (fst (hireBid fault u bidId st)) !! k
          = <[gigId bid := assign bidId gig]> (gigs st) !! k) as ->.
  { by destruct Hc as [[_ ->]|[_ ->]]. }
  rewrite lookup_insert. case_decide as Hd; [|by left].
  subst k. assert (gig = g) as -> by congruence.
  right; right; right. exists bidId, fault, bid. by subst u.
Qed.

Section LedgerRuns.

Variable gigValid : string -> string -> Z -> bool.

Lemma Ledger_createGig caller t d b st :
  Inv st -> Ledger st -> Ledger (fst (createGig gigValid caller t d b st)).
Proof.
  intros HI HL. unfold createGig.
  destruct t as [t|], d as [d|], b as [b|]; try done.
  destruct (gigValid t d b); [|done]. cbn [fst].
  assert (Hnew : forall k b0, bids st !! k = Some b0 -> gigId b0 <> fresh st).
  { intros k b0 Hk Heq. destruct (inv_bid_gig st HI k b0 Hk) as [g Hg].
    pose proof (inv_gig_fresh st HI _ _ Hg). lia. }
  split; cbn [gigs bids fresh].
  - eapply led_unique; eauto.
  - intros k b0 g Hk. rewrite lookup_insert_ne by (symmetry; eauto).
    eapply led_not_owner; eauto.
  - intros gid g. rewrite lookup_insert. case_decide.
    + by intros [= <-].
    + eapply led_open_unhired; eauto.
  - intros k b0 Hk. pose proof (led_bid_time st HL k b0 Hk). lia.
  - intros k g. rewrite lookup_insert. case_decide.
    + intros [= <-]. cbn. lia.
    + intros Hk. pose proof (led_gig_time st HL k g Hk). lia.
Qed.

Lemma Ledger_updateGig caller id t d b st :
  Ledger st -> Ledger (fst (updateGig gigValid caller id t d b st)).
Proof.
  intros HL. unfold updateGig.
  destruct (gigs st !! id) as [gig|] eqn:Hg; [|done].
  case_bool_decide as Ho; cbn [negb]; [|done].
  case_bool_decide as Hs; [done|].
  destruct (gigValid _ _ _); [|done]. cbn [fst].
  set (gig' := setGigContent _ _ _ _).
  assert (gigStatus gig' = gigStatus gig /\ hiredBidId gig' = hiredBidId gig /\
          ownerId gig' = ownerId gig /\ gigCreatedAt gig' = gigCreatedAt gig)
    as (Hsg & Hhg & Hog & Htg) by done.
  clearbody gig'.
  split; cbn [gigs bids fresh].
  - eapply led_unique; eauto.
  - intros k b0 g Hk. rewrite lookup_insert. case_decide as Hd.
    + intros [= <-]. rewrite Hog. rewrite Hd in Hg. eapply led_not_owner; eauto.
    + eapply led_not_owner; eauto.
  - intros gid g. rewrite lookup_insert. case_decide.
    + intros [= <-]. rewrite Hsg, Hhg. subst. eapply led_open_unhired; eauto.
    + eapply led_open_unhired; eauto.
  - eapply led_bid_time; eauto.
  - intros k g. rewrite lookup_insert. case_decide.
    + intros [= <-]. rewrite Htg. subst. eapply led_gig_time; eauto.
    + eapply led_gig_time; eauto.
Qed.

Lemma Ledger_deleteGig caller id st :
  Ledger st -> Ledger (fst (deleteGig caller id st)).
Proof.
  intros HL. unfold deleteGig.
  destruct (gigs st !! id) as [gig|] eqn:Hg; [|done].
  case_bool_decide as Ho; cbn [negb]; [|done]. cbn [fst].
  split; cbn [gigs bids fresh].
  - intros k1 k2 b1 b2 [H1 _]%lookup_deleteMany_Some [H2 _]%lookup_deleteMany_Some.
    eapply led_unique; eauto.
  - intros k b g [Hk _]%lookup_deleteMany_Some [_ Hgg]%lookup_delete_Some.
    eapply led_not_owner; eauto.
  - intros gid g [_ Hgg]%lookup_delete_Some. eapply led_open_unhired; eauto.
  - intros k b [Hk _]%lookup_deleteMany_Some. eapply led_bid_time; eauto.
  - intros k g [_ Hk]%lookup_delete_Some. eapply led_gig_time; eauto.
Qed.

Lemma Ledger_protect user handler st :
  (forall caller, Ledger (fst (handler caller st))) -> Ledger st ->
  Ledger (fst (protect user handler st)).
Proof. intros H HL. destruct user; cbn; auto. Qed.

Lemma Ledger_step st r : Inv st -> Ledger st -> Ledger (step gigValid st r).
Proof.
  intros HI HL. unfold step.
  destruct r; cbn [handle];
    try (apply Ledger_protect; [intros caller|done]).
  - by apply Ledger_createBid.
  - done.
  - unfold getBidsForGig. destruct (gigs st !! gid); [|done]. by destruct (negb _).
  - by apply Ledger_hireBid.
  - by apply Ledger_updateBid.
  - by apply Ledger_deleteBid.
  - unfold getGigs. destruct (orS search _); [done|].
    by destruct (Text.parse _).
  - done.
  - unfold getGigById. by destruct (gigs st !! id).
  - by apply Ledger_createGig.
  - by apply Ledger_updateGig.
  - by apply Ledger_deleteGig.
Qed.

Lemma Sound_run rs st :
  Inv st -> Ledger st -> Inv (run gigValid rs st) /\ Ledger (run gigValid rs st).
Proof.
  revert st. induction rs as [|r rs IH]; intros st HI HL; [done|].
  cbn. apply IH; [by apply Inv_step | by apply Ledger_step].
Qed.


Lemma createGig_gig_effect u t d bb st k g :
  Inv st -> gigs st !! k = Some g ->
  gigs (fst (createGig gigValid u t d bb st)) !! k = Some g.
Proof.
  intros HI Hk. unfold createGig. repeat case_match; cbn [fst gigs]; try done.
  rewrite lookup_insert_ne; [done|].
  pose proof (inv_gig_fresh st HI k g Hk). lia.
Qed.

Lemma updateGig_gig_effect u id t d bb st k g :
  gigs st !! k = Some g ->
  gigEffect st (PutGig (Some u) id t d bb) k g
            (gigs (fst (updateGig gigValid u id t d bb st)) !! k).
Proof.
  intros Hk. unfold gigEffect, updateGig.
  destruct (decide (k = id)) as [->|Hne].
  - rewrite Hk. case_bool_decide as Ho; cbn [negb]; [|by left].
    case_bool_decide as Hs; [by left|].
    case_match; cbn [fst gigs]; [|by left].
    rewrite lookup_insert_eq. right; right; left. exists t, d, bb. subst u.
    split; [done|]. split; [by destruct (gigStatus g)|done].
  - repeat case_match; cbn [fst gigs]; try by left.
    left. by rewrite lookup_insert_ne.
Qed.

Lemma deleteGig_gig_effect u id st k g :
  gigs st !! k = Some g ->
  gigEffect st (DeleteGig (Some u) id) k g
            (gigs (fst (deleteGig u id st)) !! k).
Proof.
  intros Hk. unfold gigEffect, deleteGig.
  destruct (decide (k = id)) as [->|Hne].
  - rewrite Hk. case_bool_decide as Ho; cbn [negb]; [|by left].
    cbn [fst gigs]. rewrite lookup_delete_eq. right; left. by subst u.
  - repeat case_match; cbn [fst gigs]; try by left.
    left. by rewrite lookup_delete_ne.
Qed.

Lemma step_fst st r :
  step gigValid st r = match handle gigValid r st with Some x => fst x | None => st end.
Proof. unfold step. by repeat case_match. Qed.

Lemma step_bid_effect st r k b :
  Inv st -> bids st !! k = Some b ->
  bidEffect st r k b (bids (step gigValid st r) !! k).
Proof.
  intros HI Hk. rewrite step_fst.
  destruct r as [u gid msg p|u|u gid|u bidId fault|u bidId msg p|u bidId
                |search sts|u|id|u t d bb|u id t d bb|u id];
    cbn [handle]; try (destruct u as [u|]; cbn [protect fst]; [|by left]).
  - left. by apply createBid_bid_effect.
  - by left.
  - unfold getBidsForGig. repeat case_match; by left.
  - by apply hire_bid_effect.
  - by apply updateBid_bid_effect.
  - by apply deleteBid_bid_effect.
  - unfold getGigs. repeat case_match; simplify_eq; by left.
  - by left.
  - unfold getGigById. repeat case_match; by left.
  - unfold createGig. repeat case_match; by left.
  - unfold updateGig. repeat case_match; by left.
  - by apply deleteGig_bid_effect.
Qed.

Lemma step_gig_effect st r k g :
  Inv st -> gigs st !! k = Some g ->
  gigEffect st r k g (gigs (step gigValid st r) !! k).
Proof.
  intros HI Hk. rewrite step_fst.
  destruct r as [u gid msg p|u|u gid|u bidId fault|u bidId msg p|u bidId
                |search sts|u|id|u t d bb|u id t d bb|u id];
    cbn [handle]; try (destruct u as [u|]; cbn [protect fst]; [|by left]).
  - unfold createBid. repeat case_match; by left.
  - by left.
  - unfold getBidsForGig. repeat case_match; by left.
  - by apply hire_gig_effect.
  - unfold updateBid. repeat case_match; by left.
  - unfold deleteBid. repeat case_match; by left.
  - unfold getGigs. repeat case_match; simplify_eq; by left.
  - by left.
  - unfold getGigById. repeat case_match; by left.
  - left. by apply createGig_gig_effect.
  - by apply updateGig_gig_effect.
  - by apply deleteGig_gig_effect.
Qed.

Lemma run_sound rs :
  Inv (run gigValid rs initial) /\ Ledger (run gigValid rs initial).
Proof. apply Sound_run; [apply Inv_initial | apply Ledger_initial]. Qed.

(** X7. In every state the requests can reach, a freelancer has at most one
    bid on a gig: two stored bids with the same gig and the same freelancer
    are one bid. *)
Theorem one_bid_per_freelancer_and_gig rs k1 k2 b1 b2 :
  bids (run gigValid rs initial) !! k1 = Some b1 ->
  bids (run gigValid rs initial) !! k2 = Some b2 ->
  gigId b1 = gigId b2 -> freelancerId b1 = freelancerId b2 ->
  k1 = k2.
Proof. destruct (run_sound rs) as [_ HL]. apply (led_unique _ HL). Qed.

(** X8. In every reachable state no bid is on a gig of its own freelancer. *)
Theorem bidder_is_never_the_owner rs k b g :
  bids (run gigValid rs initial) !! k = Some b ->
  gigs (run gigValid rs initial) !! gigId b = Some g ->
  freelancerId b <> ownerId g.
Proof. destruct (run_sound rs) as [_ HL]. apply (led_not_owner _ HL). Qed.


(** X10. In every reachable state the gig of a bid exists, and the bid is
    pending exactly when that gig is open. *)
Theorem bid_pending_iff_gig_open rs k b :
  bids (run gigValid rs initial) !! k = Some b ->
  exists g, gigs (run gigValid rs initial) !! gigId b = Some g
            /\ (status b = pending <-> gigStatus g = open).
Proof.
  destruct (run_sound rs) as [HI HL]. intros Hb.
  destruct (inv_bid_gig _ HI k b Hb) as [g Hg]. exists g. split; [done|].
  destruct (gigStatus g) eqn:Hs.
  - split; [done|]. intros _. eapply inv_open; eauto.
  - split; [|done]. intros Hp.
    destruct (inv_assigned _ HI _ g Hg Hs) as (h & bh & _ & Hbh & _ & Hsh & Hrest).
    destruct (decide (k = h)) as [->|Hne]; [congruence|].
    pose proof (Hrest k b Hb eq_refl Hne). congruence.
Qed.

(** X11. In every reachable state a stored bid is within its schema: the
    message is trimmed (it neither starts nor ends with whitespace) and has
    10 to 1000 characters, and the price is between 1 and 1000000. *)
Theorem stored_bid_within_schema rs k b :
  bids (run gigValid rs initial) !! k = Some b ->
  headOk (message b)
  /\ match lastChar (message b) with
     | Some c => Text.is_space c = false
     | None => True
     end
  /\ (10 <= String.length (message b) <= 1000)%nat
  /\ (1 <= price b <= 1000000)%Z.
Proof.
  destruct (run_sound rs) as [HI _]. intros Hb.
  destruct (inv_bid_schema _ HI k b Hb) as [Ht Hv].
  unfold validateBid, validMessage, validPrice in Hv.
  split. { rewrite <- Ht. apply TextFacts.trim_right_headOk, TextFacts.trim_left_headOk. }
  split. { rewrite <- Ht. apply trim_right_lastChar. }
  apply andb_true_iff in Hv as [[H1 H2]%andb_true_iff [H3 H4]%andb_true_iff].
  apply Nat.leb_le in H1, H2. apply Z.leb_le in H3, H4. lia.
Qed.

(** X12. What a request can do to a bid of a reachable state: nothing; or
    delete it, on the request of its freelancer while it is pending, or of
    the owner of its gig together with the gig; or give it a new message
    and price, on the request of its freelancer while it is pending; or
    move it from pending to hired or rejected, on a hire by the owner of its
    gig.  Its gig, its freelancer and its creation time never change. *)
Theorem bid_life_cycle rs r k b :
  bids (run gigValid rs initial) !! k = Some b ->
  bidEffect (run gigValid rs initial) r k b
            (bids (step gigValid (run gigValid rs initial) r) !! k).
Proof. destruct (run_sound rs) as [HI _]. by apply step_bid_effect. Qed.

(** X13. What a request can do to a gig of a reachable state: nothing; or
    delete it, on the request of its owner; or give it new content, on the
    request of its owner while it is open; or assign it to one of its bids,
    on a hire by its owner while it is open.  Its owner never changes, and
    an assigned gig never becomes open again. *)
Theorem gig_life_cycle rs r k g :
  gigs (run gigValid rs initial) !! k = Some g ->
  gigEffect (run gigValid rs initial) r k g
            (gigs (step gigValid (run gigValid rs initial) r) !! k).
Proof. destruct (run_sound rs) as [HI _]. by apply step_gig_effect. Qed.

(** X14. In a reachable state a bid that is hired or rejected, and a gig
    that is assigned, are final: after any request each is still there
    and the same in every field, unless the request is the deletion of the
    gig by its owner, which removes them. *)
Theorem terminal_documents_are_final rs r :
  let st := run gigValid rs initial in
  (forall k b, bids st !! k = Some b -> status b <> pending ->
     bids (step gigValid st r) !! k = Some b
     \/ (bids (step gigValid st r) !! k = None
         /\ exists g, gigs st !! gigId b = Some g
                      /\ r = DeleteGig (Some (ownerId g)) (gigId b)))
  /\ (forall k g, gigs st !! k = Some g -> gigStatus g = assigned ->
     gigs (step gigValid st r) !! k = Some g
     \/ (gigs (step gigValid st r) !! k = None
         /\ r = DeleteGig (Some (ownerId g)) k)).
Proof.
  intros st. destruct (run_sound rs) as [HI _]. fold st in HI. split.
  - intros k b Hb Hs.
    destruct (step_bid_effect st r k b HI Hb)
      as [H|[(_ & Hp & _)|[H|[(msg & p & _ & Hp & _)|(g & i & f & _ & _ & Hp & _)]]]];
      try done; auto.
  - intros k g Hg Hs.
    destruct (step_gig_effect st r k g HI Hg)
      as [H|[H|[(t & d & b & _ & Ho & _)|(i & f & bid & _ & Ho & _)]]];
      try congruence; auto.
Qed.

End LedgerRuns.

(** The first bid of the scenario met twice. *)
Lemma one_bid_per_freelancer_and_gig_witness : 1%nat = 1%nat.
Proof.
  apply (one_bid_per_freelancer_and_gig positiveBudget scenarioRequests
           1%nat 1%nat scenarioBid1 scenarioBid1); reflexivity.
Defined.

(** The first freelancer of the scenario and the owner of its gig. *)
Lemma bidder_is_never_the_owner_witness :
  freelancerId scenarioBid1 <> ownerId scenarioGig.
Proof.
  apply (bidder_is_never_the_owner positiveBudget scenarioRequests
           1%nat scenarioBid1 scenarioGig); reflexivity.
Defined.


(** The second bid of the scenario after the hire: rejected, its gig
    assigned. *)
Lemma bid_pending_iff_gig_open_witness :
  exists g, gigs (run positiveBudget hiredRequests initial) !! 0%nat = Some g
            /\ (rejected = pending <-> gigStatus g = open).
Proof.
  apply (bid_pending_iff_gig_open positiveBudget hiredRequests 2%nat
           (setStatus rejected scenarioBid2)).
  reflexivity.
Defined.

(** The first bid of the scenario. *)
Lemma stored_bid_within_schema_witness :
  (10 <= String.length (message scenarioBid1) <= 1000)%nat
  /\ (1 <= price scenarioBid1 <= 1000000)%Z.
Proof.
  destruct (stored_bid_within_schema positiveBudget scenarioRequests 1%nat
              scenarioBid1 eq_refl) as (_ & _ & Hm & Hp).
  by split.
Defined.

(** The second bid of the scenario under the hire of the first. *)
Lemma bid_life_cycle_witness :
  bidEffect scenario (PatchHire (Some 1%nat) 1%nat None) 2%nat scenarioBid2
            (Some (setStatus rejected scenarioBid2)).
Proof.
  apply (bid_life_cycle positiveBudget scenarioRequests
           (PatchHire (Some 1%nat) 1%nat None) 2%nat scenarioBid2).
  reflexivity.
Defined.

(** The gig of the scenario under the hire of the first bid. *)
Lemma gig_life_cycle_witness :
  gigEffect scenario (PatchHire (Some 1%nat) 1%nat None) 0%nat scenarioGig
            (Some (assign 1%nat scenarioGig)).
Proof.
  apply (gig_life_cycle positiveBudget scenarioRequests
           (PatchHire (Some 1%nat) 1%nat None) 0%nat scenarioGig).
  reflexivity.
Defined.

(** After the hire, the freelancer of the hired bid asks to delete it: it
    stays as it is. *)
Lemma terminal_documents_are_final_witness :
  bids (step positiveBudget (run positiveBudget hiredRequests initial)
             (DeleteBid (Some 2%nat) 1%nat)) !! 1%nat
  = Some (setStatus hired scenarioBid1).
Proof.
  destruct (terminal_documents_are_final positiveBudget hiredRequests
              (DeleteBid (Some 2%nat) 1%nat)) as [Hbid _].
  destruct (Hbid 1%nat (setStatus hired scenarioBid1)) as [H|[_ (g & _ & H)]];
    [reflexivity | discriminate | exact H | discriminate H].
Defined.

(** ** What follows for the requests *)

(** A hire answered 200 met no store error and passed the four checks. *)
Lemma hireBid_200 fault u bidId st :
  statusOf (snd (hireBid fault u bidId st)) = Some 200%nat ->
  fault = None /\ exists bid gig,
    bids st !! bidId = Some bid /\ gigs st !! gigId bid = Some gig
    /\ ownerId gig = u /\ gigStatus gig = open.
Proof.
  destruct (bids st !! bidId) as [bid|] eqn:Hb.
  2:{ unfold hireBid, startTransaction. cbn [txBids]. rewrite Hb.
      by destruct (throws fault FindBid). }
  destruct (gigs st !! gigId bid) as [gig|] eqn:Hg.
  2:{ unfold hireBid, startTransaction. cbn [txBids txGigs]. rewrite Hb, Hg.
      by destruct (throws fault FindBid), (throws fault FindGig). }
  destruct (decide (ownerId gig = u)) as [Ho|Ho].
  2:{ unfold hireBid, startTransaction. cbn [txBids txGigs]. rewrite Hb, Hg.
      rewrite (bool_decide_eq_false_2 _ Ho).
      by destruct (throws fault FindBid), (throws fault FindGig). }
  destruct (gigStatus gig) eqn:Hs.
  - rewrite (hireBid_run fault u bidId bid gig st Hb Hg Ho Hs).
    destruct fault as [[]|]; cbn; try done. intros _. split; [done|]. by exists bid, gig.
  - unfold hireBid, startTransaction. cbn [txBids txGigs]. rewrite Hb, Hg.
    rewrite (bool_decide_eq_true_2 _ Ho), Hs. cbn.
    by destruct (throws fault FindBid), (throws fault FindGig).
Qed.

Lemma hireBid_outbox fault u bidId st :
  statusOf (snd (hireBid fault u bidId st)) <> Some 200%nat ->
  outbox (fst (hireBid fault u bidId st)) = outbox st.
Proof.
  intros Hr. destruct (hireBid_cases fault u bidId st)
    as [->|(bid & gig & Hb & Hg & Ho & Hs & [[_ ->]|[-> _]])]; [done|done|].
  rewrite (hireBid_run None u bidId bid gig st Hb Hg Ho Hs) in Hr. by destruct Hr.
Qed.

Section Consequences.

Variable gigValid : string -> string -> Z -> bool.

(** X15. The hired event is pushed by a hire that is answered 200, once,
    to the room of the freelancer of the hired bid, with the gig's id and
    title and the bid's id and price; no other request, and no hire with
    another outcome, pushes anything. *)
Theorem hired_event_only_on_hire r st st' resp :
  handle gigValid r st = Some (st', resp) ->
  (exists u bidId bid gig,
     r = PatchHire (Some u) bidId None
     /\ statusOf resp = Some 200%nat
     /\ bids st !! bidId = Some bid /\ gigs st !! gigId bid = Some gig
     /\ outbox st' = outbox st ++ [hiredEvent bidId bid (gigId bid) gig]
     /\ room (hiredEvent bidId bid (gigId bid) gig) = freelancerId bid)
  \/ (outbox st' = outbox st
      /\ forall u bidId fault, r = PatchHire u bidId fault ->
                               statusOf resp <> Some 200%nat).
Proof.
  intros H.
  destruct r as [u gid msg p|u|u gid|u bidId fault|u bidId msg p|u bidId
                |search sts|u|id|u t d bb|u id t d bb|u id];
    cbn [handle] in H;
    try (right; split; [|by intros];
         try (destruct u as [u|]; cbn [protect] in H);
         unfold createBid, getMyBids, getBidsForGig, updateBid, deleteBid,
           getGigs, getMyGigs, getGigById, createGig, updateGig, deleteGig in H;
         repeat case_match; by simplify_eq).
  destruct u as [u|]; cbn [protect] in H.
  2:{ right. simplify_eq. split; [done|]. by intros. }
  injection H as H.
  destruct (decide (statusOf resp = Some 200%nat)) as [Hr|Hr].
  - left. assert (statusOf (snd (hireBid fault u bidId st)) = Some 200%nat) as Hr'
      by (by rewrite H).
    destruct (hireBid_200 _ _ _ _ Hr') as (-> & bid & gig & Hb & Hg & Ho & Hs).
    rewrite (hireBid_run None u bidId bid gig st Hb Hg Ho Hs) in H.
    injection H as <- <-. by exists u, bidId, bid, gig.
  - right. split; [|by intros].
    assert (statusOf (snd (hireBid fault u bidId st)) <> Some 200%nat) as Hr'
      by (by rewrite H).
    pose proof (hireBid_outbox _ _ _ _ Hr') as Ho. by rewrite H in Ho.
Qed.

(** X16. The guards of the gig's update and deletion, in the order of the
    code: a missing gig is answered 404; a caller who is not the owner is
    answered 403 whatever the gig's status; the owner's update of an
    assigned gig is answered 400.  Nothing is changed in any of these. *)
Theorem gig_guards st caller id :
  (gigs st !! id = None ->
     (forall t d b, updateGig gigValid caller id t d b st
                    = (st, Json not_found (Failure "Gig not found")))
     /\ deleteGig caller id st = (st, Json not_found (Failure "Gig not found")))
  /\ (forall gig, gigs st !! id = Some gig -> ownerId gig <> caller ->
     (forall t d b, updateGig gigValid caller id t d b st
        = (st, Json forbidden (Failure "Not authorized to update this gig")))
     /\ deleteGig caller id st
        = (st, Json forbidden (Failure "Not authorized to delete this gig")))
  /\ (forall gig, gigs st !! id = Some gig -> ownerId gig = caller ->
     gigStatus gig = assigned ->
     forall t d b, updateGig gigValid caller id t d b st
        = (st, Json conflict (Failure "Cannot update an assigned gig"))).
Proof.
  unfold updateGig, deleteGig. repeat apply conj.
  - intros ->. by split.
  - intros gig -> Ho. by rewrite (bool_decide_eq_false_2 _ Ho).
  - intros gig -> Ho Hs t d b.
    by rewrite (bool_decide_eq_true_2 _ Ho), (bool_decide_eq_true_2 _ Hs).
Qed.


(** X18. After a bid has been accepted with 201, a further bid by the same
    caller on the same gig, whatever its message and price, is refused as a
    duplicate and changes nothing. *)
Theorem second_bid_is_refused st st' caller gid msg p body msg' p' :
  createBid caller gid msg p st = (st', Json 201 body) ->
  createBid caller gid msg' p' st'
  = (st', Json conflict (Failure "You have already submitted a bid for this gig")).
Proof.
  unfold createBid at 1.
  destruct (gigs st !! gid) as [gig|] eqn:Hg; [|done].
  case_bool_decide as Hs; cbn [negb]; [|done].
  case_bool_decide as Ho; [done|].
  destruct (existsBid _ _); [done|].
  destruct (newBid gid caller msg p (fresh st)) as [bid|] eqn:Hn; [|done].
  destruct (validateBid bid); [|done]. intros [= <- _].
  assert (gigId bid = gid /\ freelancerId bid = caller) as [Hgb Hfb].
  { unfold newBid in Hn. destruct msg, p; try done. by injection Hn as <-. }
  unfold createBid. cbn [gigs bids]. rewrite Hg.
  rewrite (bool_decide_eq_true_2 _ Hs), (bool_decide_eq_false_2 _ Ho). cbn [negb].
  assert (existsBid (fun _ b => bool_decide (gigId b = gid)
                              && bool_decide (freelancerId b = caller))
                    (<[fresh st := bid]> (bids st)) = true) as ->.
  { apply existsBid_duplicate. exists (fresh st), bid. by rewrite lookup_insert_eq. }
  done.
Qed.
End Consequences.

(** ** Blank messages, and withdrawing a bid *)

(** A bid that passes the checks and the validators is accepted. *)
Lemma createBid_accepts caller gid m n gig st :
  gigs st !! gid = Some gig -> gigStatus gig = open -> ownerId gig <> caller ->
  (forall k b, bids st !! k = Some b -> gigId b = gid -> freelancerId b <> caller) ->
  validMessage (Text.trim m) = true -> validPrice n = true ->
  exists st' body, createBid caller gid (Some m) (Some n) st = (st', Json 201 body).
Proof.
  intros Hg Hs Ho Hdup Hm Hn. unfold createBid. rewrite Hg.
  rewrite (bool_decide_eq_true_2 _ Hs), (bool_decide_eq_false_2 _ Ho). cbn [negb].
  destruct (existsBid _ _) eqn:He.
  { apply existsBid_duplicate in He as (k & b & Hk & H1 & H2).
    by destruct (Hdup k b Hk H1). }
  cbn. unfold validateBid. cbn. rewrite Hm, Hn. cbn. by eexists _, _.
Qed.

Lemma allSpace_trim m : allSpace m = true -> Text.trim m = EmptyString.
Proof.
  unfold Text.trim, allSpace. induction m as [|c r IH]; cbn; [done|].
  intros [Hc Hr]%andb_true_iff. rewrite Hc. by apply IH.
Qed.

(** X19. A message of whitespace only is not ignored the way the empty
    string is: it is truthy, so [updateBid] takes it, the schema trims it
    to nothing, and the update fails validation with the bid unchanged;
    [createBid] fails validation on it alike. *)
Theorem blank_message_is_refused m :
  allSpace m = true -> m <> EmptyString ->
  (forall st caller bidId bid p,
     bids st !! bidId = Some bid -> freelancerId bid = caller ->
     status bid = pending ->
     updateBid caller bidId (Some m) p st = (st, NextError ValidationError))
  /\ (forall st caller gid gig p,
     gigs st !! gid = Some gig -> gigStatus gig = open -> ownerId gig <> caller ->
     (forall k b, bids st !! k = Some b -> gigId b = gid -> freelancerId b <> caller) ->
     createBid caller gid (Some m) p st = (st, NextError ValidationError)).
Proof.
  intros Hm Hne. pose proof (allSpace_trim m Hm) as Ht. split.
  - intros st caller bidId bid p Hb Ho Hs. unfold updateBid. rewrite Hb.
    rewrite (bool_decide_eq_true_2 _ Ho), (bool_decide_eq_true_2 _ Hs). cbn [negb].
    unfold validateBid. cbn [setMessage setPrice message].
    assert (orS (Some m) (message bid) = m) as -> by (by destruct m).
    by rewrite Ht.
  - intros st caller gid gig p Hg Hs Ho Hdup. unfold createBid. rewrite Hg.
    rewrite (bool_decide_eq_true_2 _ Hs), (bool_decide_eq_false_2 _ Ho). cbn [negb].
    destruct (existsBid _ _) eqn:He.
    { apply existsBid_duplicate in He as (k & b & Hk & H1 & H2).
      by destruct (Hdup k b Hk H1). }
    destruct p as [n|]; cbn; [|done]. unfold validateBid. cbn. by rewrite Ht.
Qed.

Section Withdrawal.

Variable gigValid : string -> string -> Z -> bool.

(** X20. In a reachable state the freelancer of a pending bid can withdraw
    it and bid again on the same gig: the deletion is answered 200 and
    removes the bid, and a new bid with a valid message and price is then
    accepted with 201. *)
Theorem withdrawn_bid_can_be_placed_again rs k b m n :
  let st := run gigValid rs initial in
  bids st !! k = Some b -> status b = pending ->
  validMessage (Text.trim m) = true -> validPrice n = true ->
  exists st1 st2 body,
    deleteBid (freelancerId b) k st = (st1, Json 200 (Success "Bid deleted successfully"))
    /\ bids st1 !! k = None
    /\ createBid (freelancerId b) (gigId b) (Some m) (Some n) st1
       = (st2, Json 201 body).
Proof.
  intros st Hb Hs Hm Hn.
  destruct (run_sound gigValid rs) as [HI HL]. fold st in HI, HL.
  destruct (inv_bid_gig st HI k b Hb) as [g Hg].
  assert (gigStatus g = open) as Hgo.
  { destruct (gigStatus g) eqn:Hgs; [done|].
    destruct (inv_assigned st HI _ g Hg Hgs) as (h & bh & _ & Hbh & _ & Hsh & Hrest).
    destruct (decide (k = h)) as [->|Hne]; [congruence|].
    pose proof (Hrest k b Hb eq_refl Hne). congruence. }
  destruct (createBid_accepts (freelancerId b) (gigId b) m n g
              {| gigs := gigs st; bids := delete k (bids st);
                 fresh := fresh st; outbox := outbox st |})
    as (st2 & body & Hc); try done.
  - intros Ho. by apply (led_not_owner st HL k b g).
  - cbn [bids]. intros k' b' [Hne Hk']%lookup_delete_Some Hg' Hf'.
    apply Hne. symmetry. by apply (led_unique st HL k' k b' b).
  - eexists _, st2, body. split; [|split; [|exact Hc]].
    + unfold deleteBid. rewrite Hb.
      rewrite (bool_decide_eq_true_2 (freelancerId b = freelancerId b)) by done.
      by rewrite (bool_decide_eq_true_2 _ Hs).
    + cbn. apply lookup_delete_eq.
Qed.
End Withdrawal.

(** ** Search and lists *)

Lemma lower_idem c : Text.lower (Text.lower c) = Text.lower c.
Proof. by destruct c as [[] [] [] [] [] [] [] []]. Qed.

Lemma is_meta_lower c : Text.is_meta (Text.lower c) = Text.is_meta c.
Proof. by destruct c as [[] [] [] [] [] [] [] []]. Qed.

Lemma eq_ci_lower a b : Text.eq_ci (Text.lower a) b = Text.eq_ci a b.
Proof. unfold Text.eq_ci. by rewrite lower_idem. Qed.

Lemma prefix_ci_lower p s : Text.prefix_ci (lowerCase p) s = Text.prefix_ci p s.
Proof.
  revert s. induction p as [|a p IH]; intros [|b s]; cbn; try done.
  by rewrite eq_ci_lower, IH.
Qed.

Lemma contains_ci_lower s p : Text.contains_ci s (lowerCase p) = Text.contains_ci s p.
Proof.
  induction s as [|b s IH]; cbn; rewrite prefix_ci_lower; [done|]. by rewrite IH.
Qed.

Lemma plain_lower p : Text.plain (lowerCase p) = Text.plain p.
Proof.
  unfold Text.plain.
  induction p as [|a p IH]; cbn [lowerCase list_ascii_of_string forallb]; [done|].
  by rewrite is_meta_lower, IH.
Qed.

Lemma findGigs_ext q1 q2 (m : gmap Id Gig) :
  (forall k g, q1 k g = q2 k g) -> findGigs q1 m = findGigs q2 m.
Proof.
  intros H. unfold findGigs. f_equal. apply list_filter_iff.
  intros [k g]. cbn. by rewrite H.
Qed.

(** X21. For a search term without metacharacters the answer of [getGigs]
    does not depend on the case of the term: the term in lower case finds
    the same gigs in the same order. *)
Theorem search_ignores_case pat status st :
  Text.plain pat = true ->
  getGigs (Some (lowerCase pat)) status st = getGigs (Some pat) status st.
Proof.
  intros Hp. unfold getGigs.
  destruct pat as [|c pat]; [done|].
  cbn [lowerCase orS].
  change (String (Text.lower c) (lowerCase pat)) with (lowerCase (String c pat)).
  rewrite (TextFacts.plain_parse (lowerCase (String c pat)))
    by (by rewrite plain_lower).
  rewrite (TextFacts.plain_parse _ Hp).
  rewrite (findGigs_ext _ (fun _ g =>
     bool_decide (gigStatusName (gigStatus g) = orS status "open")
     && matchesSearch (Text.Lit <$> list_ascii_of_string (String c pat)) g)); [done|].
  intros k g. f_equal. unfold matchesSearch.
  by rewrite !TextFacts.search_lits, !contains_ci_lower.
Qed.

(** X22. [getBidsForGig] answers 404 for a missing gig and 403 for a caller
    who is not its owner; for the owner it answers 200 with exactly the
    bids stored for the gig, whatever their status, and their number. *)
Theorem getBidsForGig_outcomes st caller gid :
  (gigs st !! gid = None ->
     getBidsForGig caller gid st = (st, Json not_found (Failure "Gig not found")))
  /\ (forall gig, gigs st !! gid = Some gig -> ownerId gig <> caller ->
     getBidsForGig caller gid st
     = (st, Json forbidden (Failure "Not authorized to view bids for this gig")))
  /\ (forall gig, gigs st !! gid = Some gig -> ownerId gig = caller ->
     exists l,
       getBidsForGig caller gid st = (st, Json 200 (BidList (length l) l))
       /\ forall k b, (k, b) ∈ l <-> bids st !! k = Some b /\ gigId b = gid).
Proof.
  unfold getBidsForGig. repeat apply conj.
  - by intros ->.
  - intros gig -> Ho. by rewrite (bool_decide_eq_false_2 _ Ho).
  - intros gig -> Ho. rewrite (bool_decide_eq_true_2 _ Ho). cbn [negb].
    eexists. split; [done|]. intros k b.
    by rewrite elem_of_findBids, bool_decide_eq_true.
Qed.

(** X23. [getMyBids] answers with exactly the bids whose freelancer is the
    caller, and [getMyGigs] with exactly the gigs whose owner is the caller,
    whatever their status; neither changes the state. *)
Theorem own_lists_are_exact st caller :
  (exists l,
     getMyBids caller st = (st, Json 200 (BidList (length l) l))
     /\ forall k b, (k, b) ∈ l <-> bids st !! k = Some b /\ freelancerId b = caller)
  /\ (exists l,
     getMyGigs caller st = (st, Json 200 (GigList (length l) l))
     /\ forall k g, (k, g) ∈ l <-> gigs st !! k = Some g /\ ownerId g = caller).
Proof.
  split; eexists; (split; [reflexivity|]); intros k x.
  - by rewrite elem_of_findBids, bool_decide_eq_true.
  - by rewrite elem_of_findGigs, bool_decide_eq_true.
Qed.


Section Listing.

Variable gigValid : string -> string -> Z -> bool.

End Listing.

(** ** The socket rooms *)

Lemma elem_of_to s u (rooms : gmap nat (gset Id)) :
  s ∈ Sockets.to u rooms <-> exists joined, rooms !! s = Some joined /\ u ∈ joined.
Proof.
  unfold Sockets.to. rewrite elem_of_dom. unfold is_Some.
  split.
  - intros [joined [H1 H2]%map_lookup_filter_Some]. by exists joined.
  - intros (joined & H1 & H2). exists joined. by apply map_lookup_filter_Some.
Qed.

Lemma after_snoc evs e :
  Sockets.after (evs ++ [e]) = Sockets.on e (Sockets.after evs).
Proof. unfold Sockets.after. by rewrite fold_left_app. Qed.

(** X25. After any sequence of connections, joins and disconnections, an
    event for a user is emitted only to a socket that has sent [join] with
    that user's id and has neither disconnected nor connected anew
    since. *)
Theorem only_joined_sockets_receive evs s u :
  s ∈ Sockets.to u (Sockets.after evs) ->
  exists pre post,
    evs = pre ++ Sockets.Join s u :: post
    /\ forall e, e ∈ post -> e <> Sockets.Disconnect s /\ e <> Sockets.Connection s.
Proof.
  induction evs as [|e evs IH] using rev_ind.
  - rewrite elem_of_to. intros (j & Hj & _). unfold Sockets.after in Hj.
    cbn [fold_left] in Hj. by rewrite lookup_empty in Hj.
  - rewrite after_snoc, elem_of_to. intros (j & Hj & Hu).
    assert (Hkeep : s ∈ Sockets.to u (Sockets.after evs) ->
              e <> Sockets.Disconnect s -> e <> Sockets.Connection s ->
              exists pre post, evs ++ [e] = pre ++ Sockets.Join s u :: post
                /\ forall e', e' ∈ post -> e' <> Sockets.Disconnect s
                                          /\ e' <> Sockets.Connection s).
    { intros Hin H1 H2. destruct (IH Hin) as (pre & post & -> & Hpost).
      exists pre, (post ++ [e]). split; [by rewrite <- app_assoc|].
      intros e' [?|Hx]%elem_of_app; [auto|].
      apply list_elem_of_singleton in Hx. by subst e'. }
    destruct e as [s'|s' u'|s']; cbn [Sockets.on] in Hj.
    + rewrite lookup_insert in Hj. case_decide as Hd.
      * injection Hj as <-. set_solver.
      * apply Hkeep; [|done|congruence]. apply elem_of_to. eauto.
    + rewrite lookup_alter in Hj. case_decide as Hd.
      * subst s'. destruct (Sockets.after evs !! s) as [j0|] eqn:Hj0; [|done].
        cbn in Hj. injection Hj as <-.
        apply elem_of_union in Hu as [->%elem_of_singleton|Hu].
        -- exists evs, []. split; [done|]. intros e' He'. by apply elem_of_nil in He'.
        -- apply Hkeep; [|done..]. apply elem_of_to. eauto.
      * apply Hkeep; [|done..]. apply elem_of_to. eauto.
    + apply lookup_delete_Some in Hj as [Hne Hj].
      apply Hkeep; [|congruence|done]. apply elem_of_to. eauto.
Qed.

(** X26. The server checks nothing about the id a [join] carries: any
    connected socket that sends [join] with a user's id is among those the
    user's events are emitted to. *)
Theorem any_connected_socket_can_join evs s u :
  is_Some (Sockets.after evs !! s) ->
  s ∈ Sockets.to u (Sockets.after (evs ++ [Sockets.Join s u])).
Proof.
  intros [j Hj]. rewrite after_snoc, elem_of_to. cbn [Sockets.on].
  exists ({[u]} ∪ j). split; [|set_solver].
  rewrite lookup_alter, decide_True by done. by rewrite Hj.
Qed.

(** ** Examples *)

(** The hire of the scenario pushes its event to the first freelancer. *)
Lemma hired_event_only_on_hire_witness :
  exists st' resp,
    handle positiveBudget (PatchHire (Some 1%nat) 1%nat None) scenario
    = Some (st', resp)
    /\ outbox st' = [hiredEvent 1%nat scenarioBid1 0%nat scenarioGig].
Proof.
  eexists _, _. split; [reflexivity|].
  match goal with
  | |- outbox ?s = _ =>
      destruct (hired_event_only_on_hire positiveBudget
                  (PatchHire (Some 1%nat) 1%nat None) scenario s _ eq_refl)
        as [(u & k & bid & gig & Hr & _ & Hb & Hg & Ho & _)|[_ Hno]]
  end.
  - injection Hr as <- <-. rewrite Ho.
    assert (bid = scenarioBid1) as -> by (by vm_compute in Hb; injection Hb).
    assert (gig = scenarioGig) as -> by (by vm_compute in Hg; injection Hg).
    reflexivity.
  - by destruct (Hno _ _ _ eq_refl).
Defined.

(** The second freelancer of the scenario against its gig. *)
Lemma gig_guards_witness :
  deleteGig 3%nat 0%nat scenario
  = (scenario, Json forbidden (Failure "Not authorized to delete this gig")).
Proof.
  destruct (gig_guards positiveBudget scenario 3%nat 0%nat) as (_ & Hf & _).
  apply (Hf scenarioGig); [reflexivity | cbn; lia].
Defined.


(** A fourth user bids twice on the scenario's gig. *)
Lemma second_bid_is_refused_witness :
  let st' := fst (createBid 4%nat 0%nat (Some "Two weeks, fixed price"%string)
                            (Some 4200%Z) scenario) in
  createBid 4%nat 0%nat (Some "One week, then"%string) (Some 4100%Z) st'
  = (st', Json conflict (Failure "You have already submitted a bid for this gig")).
Proof.
  intros st'.
  eapply (second_bid_is_refused scenario st' 4%nat 0%nat
            (Some "Two weeks, fixed price"%string) (Some 4200%Z)).
  reflexivity.
Defined.

(** The first freelancer of the scenario sends three spaces as the message. *)
Lemma blank_message_is_refused_witness :
  updateBid 2%nat 1%nat (Some "   "%string) (Some 3900%Z) scenario
  = (scenario, NextError ValidationError).
Proof.
  destruct (blank_message_is_refused "   " eq_refl) as [Hu _]; [discriminate|].
  apply (Hu scenario 2%nat 1%nat scenarioBid1); reflexivity.
Defined.

(** The first freelancer of the scenario withdraws and bids again. *)
Lemma withdrawn_bid_can_be_placed_again_witness :
  exists st1 st2 body,
    deleteBid 2%nat 1%nat (run positiveBudget scenarioRequests initial)
    = (st1, Json 200 (Success "Bid deleted successfully"))
    /\ bids st1 !! 1%nat = None
    /\ createBid 2%nat 0%nat (Some "I can do it in ten days"%string)
                 (Some 3900%Z) st1
       = (st2, Json 201 body).
Proof.
  apply (withdrawn_bid_can_be_placed_again positiveBudget scenarioRequests
           1%nat scenarioBid1 "I can do it in ten days" 3900%Z);
    reflexivity.
Defined.

(** REACT and react find the same gigs. *)
Lemma search_ignores_case_witness :
  getGigs (Some "react"%string) None scenario
  = getGigs (Some "REACT"%string) None scenario.
Proof. apply (search_ignores_case "REACT" None scenario). reflexivity. Defined.

(** The owner of the scenario's gig sees both bids. *)
Lemma getBidsForGig_outcomes_witness :
  exists l,
    getBidsForGig 1%nat 0%nat scenario = (scenario, Json 200 (BidList (length l) l))
    /\ (1%nat, scenarioBid1) ∈ l /\ (2%nat, scenarioBid2) ∈ l.
Proof.
  destruct (getBidsForGig_outcomes scenario 1%nat 0%nat) as (_ & _ & Hok).
  destruct (Hok scenarioGig) as (l & Hr & Hin); [reflexivity ..|].
  exists l. split; [exact Hr|]. split; apply Hin; by split.
Defined.


(** Socket 7 connects, joins the room of user 2 and receives its events. *)
Lemma only_joined_sockets_receive_witness :
  exists pre post,
    [Sockets.Connection 7; Sockets.Join 7 2%nat]
    = pre ++ Sockets.Join 7 2%nat :: post.
Proof.
  destruct (only_joined_sockets_receive
              [Sockets.Connection 7; Sockets.Join 7 2%nat] 7 2%nat)
    as (pre & post & H & _).
  - by vm_compute.
  - by exists pre, post.
Defined.

(** Socket 8, whoever holds it, joins the room of user 2. *)
Lemma any_connected_socket_can_join_witness :
  8 ∈ Sockets.to 2%nat
        (Sockets.after ([Sockets.Connection 8] ++ [Sockets.Join 8 2%nat])).
Proof.
  apply (any_connected_socket_can_join [Sockets.Connection 8] 8 2%nat).
  by eexists.
Defined.
